(** * Taxonomy resolution engine of fda-devices-mcp (src/index.ts)

    A shallow embedding of the query path of the [classify_device] tool:
    synonym expansion, combinatorial broadening, relevance scoring, the
    budgeted search loop and the 510(k) bridge, followed by the properties
    proved about them.  The validation helpers, the date and link helpers and
    the request building of the four search tools ([search_510k],
    [search_pma], [search_recalls], [search_adverse_events]) follow, with
    their properties at the end.

    Conventions.  JavaScript strings are modelled as [string] (ASCII text);
    [toLowerCase] folds A-Z and [\s] is the ASCII white space.  JavaScript
    numbers that hold counters are [nat]; the relevance score is an exact
    rational ([Q]).  The object [SYNONYMS] and the [Set]s are finite maps and
    sets over their own keys.  The remote service is an arbitrary state
    machine [queryOpenFDA : World -> Request -> OpenFDAResponse * World], and
    every call is logged with its response. *)

From Stdlib Require Import Ascii String QArith Lqa.
From stdpp Require Import gmap strings list fin_maps.

Set Warnings "-clear-no-such-hyp".

Local Open Scope list_scope.
Local Open Scope nat_scope.

(** ** Combination generator *)

(** The generator [combine(start, picked)] inside [getCombinationIndices]:
    it yields [picked] once it holds [size] indices, and otherwise extends it
    with every [i] in [start .. n-1] in turn.  [fuel] bounds the depth of the
    recursion; every call lengthens [picked], so [size + 1] levels are enough
    (lemma [combine_subsets]). *)
Fixpoint combine (fuel n size start : nat) (picked : list nat) : list (list nat) :=
  match fuel with
  | O => []
  | S fuel' =>
      if length picked =? size then [picked]
      else seq start (n - start) ≫= (λ i, combine fuel' n size (S i) (picked ++ [i]))
  end.

(** The contiguity test of [getCombinationIndices]:
    [combo[i] !== combo[i - 1] + 1] for some [i >= 1] makes it false. *)
Fixpoint isContiguous (combo : list nat) : bool :=
  match combo with
  | a :: (b :: _) as rest => (b =? a + 1) && isContiguous rest
  | _ => true
  end.

(** The loop that sorts the generated index lists into the two arrays
    [contiguous] and [nonContiguous]. *)
Definition classify_combo (acc : list (list nat) * list (list nat)) (combo : list nat)
  : list (list nat) * list (list nat) :=
  if isContiguous combo then (acc.1 ++ [combo], acc.2) else (acc.1, acc.2 ++ [combo]).

Definition getCombinationIndices (n size : nat) : list (list nat) :=
  let '(contiguous, nonContiguous) :=
    foldl classify_combo ([], []) (combine (S size) n size 0 []) in
  contiguous ++ nonContiguous.

(** [idx.map((i) => terms[i])]; every generated index is below
    [terms.length], the default is never read. *)
Definition pick (terms : list string) (idx : list nat) : list string :=
  (λ i, nth i terms "") <$> idx.

(** [for (let size = terms.length; size >= 1; size--)]. *)
Fixpoint combos_from_size (terms : list string) (size : nat) : list (list string) :=
  match size with
  | O => []
  | S size' =>
      (pick terms <$> getCombinationIndices (length terms) size)
        ++ combos_from_size terms size'
  end.

Definition generateCombinations (terms : list string) : list (list string) :=
  if length terms <=? 1 then [terms]
  else combos_from_size terms (length terms).

(** The index lists behind [generateCombinations], in the same order. *)
Fixpoint indices_from_size (n size : nat) : list (list nat) :=
  match size with
  | O => []
  | S size' => getCombinationIndices n size ++ indices_from_size n size'
  end.


(** ** Strings *)

(** [String.prototype.toLowerCase] and [toUpperCase] on ASCII text. *)
Definition lower_ascii (c : ascii) : ascii :=
  let n := nat_of_ascii c in
  if (65 <=? n) && (n <=? 90) then ascii_of_nat (n + 32) else c.

Definition upper_ascii (c : ascii) : ascii :=
  let n := nat_of_ascii c in
  if (97 <=? n) && (n <=? 122) then ascii_of_nat (n - 32) else c.

Fixpoint map_string (f : ascii → ascii) (s : string) : string :=
  match s with
  | EmptyString => EmptyString
  | String c s' => String (f c) (map_string f s')
  end.

Definition toLowerCase : string → string := map_string lower_ascii.
Definition toUpperCase : string → string := map_string upper_ascii.

(** The class [\s] restricted to ASCII: tab, line feed, vertical tab, form
    feed, carriage return and space. *)
Definition isSpace (c : ascii) : bool :=
  let n := nat_of_ascii c in
  ((9 <=? n) && (n <=? 13)) || (n =? 32).

(** [s.split(/\s+/)]: every maximal run of white space is one separator; a
    separator at either end leaves an empty first or last piece, and the empty
    string splits into one empty piece.  [cur] is the piece being read,
    [in_ws] tells that the previous character was white space. *)
Fixpoint split_go (cur : string) (in_ws : bool) (s : string) : list string :=
  match s with
  | EmptyString => [String.rev cur]
  | String c s' =>
      if isSpace c then
        if in_ws then split_go cur true s'
        else String.rev cur :: split_go EmptyString true s'
      else split_go (String c cur) false s'
  end.

Definition split_ws (s : string) : list string := split_go EmptyString false s.

Fixpoint trimStart (s : string) : string :=
  match s with
  | EmptyString => EmptyString
  | String c s' => if isSpace c then trimStart s' else s
  end.

Definition trim (s : string) : string :=
  String.rev (trimStart (String.rev (trimStart s))).

(** [parts.join(sep)]. *)
Fixpoint join (sep : string) (parts : list string) : string :=
  match parts with
  | [] => ""
  | [p] => p
  | p :: rest => p +:+ sep +:+ join sep rest
  end.

(** [text.includes(s)]: [s] starts at some position of [text]. *)
Fixpoint includes (text s : string) : bool :=
  String.prefix s text ||
  match text with
  | EmptyString => false
  | String _ text' => includes text' s
  end.

(** ** Synonym table *)

(** The entries of the object literal [SYNONYMS], in source order. *)
Definition SYNONYMS_entries : list (string * list string) := [
  ("ecg", ["electrocardiograph"]);
  ("ekg", ["electrocardiograph"]);
  ("robot", ["computer controlled instrument"]);
  ("robotic", ["computer controlled instrument"]);
  ("bp", ["blood pressure"]);
  ("cgm", ["continuous glucose monitor"]);
  ("ai", ["artificial intelligence"]);
  ("mri", ["magnetic resonance imaging"]);
  ("ct", ["computed tomography"]);
  ("xray", ["x-ray"]);
  ("x-ray", ["radiographic"]);
  ("ultrasound", ["ultrasonic"]);
  ("cpap", ["continuous positive airway pressure"]);
  ("tens", ["transcutaneous electrical nerve stimulation"]);
  ("iud", ["intrauterine"]);
  ("stent", ["endoprosthesis"]);
  ("pacemaker", ["pulse generator"]);
  ("defibrillator", ["defibrillator"]);
  ("ventilator", ["ventilator"]);
  ("catheter", ["catheter"]);
  ("laser", ["laser"]);
  ("pump", ["infusion pump"]);
  ("thermometer", ["thermometer"]);
  ("oximeter", ["oximeter"]);
  ("hearing", ["hearing aid"]);
  ("insulin", ["insulin"]);
  ("dialysis", ["hemodialysis"]);
  ("prosthetic", ["prosthesis"]);
  ("implant", ["implant"]);
  ("endoscope", ["endoscope"]);
  ("monitor", ["monitor"]);
  ("wearable", ["wearable"]);
  ("patch", ["ambulatory"]);
  ("portable", ["portable"]);
  ("wireless", ["wireless"]);
  ("bluetooth", ["wireless"]);
  ("home", ["home use"]);
  ("otc", ["over-the-counter"]);
  ("samd", ["software"]);
  ("software device", ["software"]);
  ("app", ["software"; "mobile"]);
  ("cad", ["computer aided detection"]);
  ("cad-x", ["computer aided diagnosis"]);
  ("triage", ["triage"]);
  ("diagnostic", ["diagnostic"]);
  ("screening", ["screening"]);
  ("imaging", ["image processing"]);
  ("ehr", ["electronic health record"]);
  ("clinical", ["clinical decision support"]);
  ("cds", ["clinical decision support"]);
  ("ml", ["machine learning"]);
  ("deep learning", ["machine learning"]);
  ("algorithm", ["algorithm"]);
  ("waveform", ["electrocardiograph"]);
  ("heart monitor", ["electrocardiograph"]);
  ("heart rate", ["heart rate"]);
  ("blood sugar", ["glucose"]);
  ("glucometer", ["glucose meter"]);
  ("spo2", ["oximeter"]);
  ("sleep apnea", ["sleep apnea"]);
  ("mammography", ["mammograph"]);
  ("mammogram", ["mammograph"]);
  ("polyp", ["lesion"]);
  ("colonoscopy", ["endoscope gastrointestinal"]);
  ("endoscopy", ["endoscope"]);
  ("dental", ["dental"]);
  ("dermatology", ["dermatoscope"]);
  ("retinal", ["retinal"]);
  ("fundus", ["fundus"]);
  ("stroke", ["stroke"]);
  ("aneurysm", ["aneurysm"]);
  ("fracture", ["fracture"]);
  ("tumor", ["lesion"]);
  ("cancer", ["cancer"]);
  ("detection", ["detection"]);
  ("diagnosis", ["diagnosis"])
].

Definition SYNONYMS : gmap string (list string) := list_to_map SYNONYMS_entries.

(** ** Synonym expansion *)

(** The body of the innermost loop of [expandSynonyms], also the body of its
    [else] branch: push [word] unless its lowercase form was seen. The state
    is the pair of [expanded] and [seen]. *)
Definition push_unseen (st : list string * gset string) (word : string)
  : list string * gset string :=
  let lower := toLowerCase word in
  if decide (lower ∈ st.2) then st else (st.1 ++ [word], {[lower]} ∪ st.2).

(** One iteration of [for (const term of terms)]. *)
Definition expand_term (st : list string * gset string) (term : string)
  : list string * gset string :=
  let key := toLowerCase term in
  match SYNONYMS !! key with
  | Some syns => foldl (λ st syn, foldl push_unseen st (split_ws syn)) st syns
  | None => if decide (key ∈ st.2) then st else (st.1 ++ [term], {[key]} ∪ st.2)
  end.

Definition expandSynonyms (terms : list string) : list string :=
  (foldl expand_term ([], ∅) terms).1.

(** ** Relevance scorer *)

(** A result item, [Record<string, unknown>]: its text fields by name. *)
Abbreviation CandidateRecord := (gmap string string).

(** The [matchStrings] of one entry of [coverageMap]. *)
Definition matchStrings (t : string) : list string :=
  let lower := toLowerCase t in
  let expansions :=
    match SYNONYMS !! lower with
    | Some syns => syns ≫= (λ s, split_ws (toLowerCase s))
    | None => []
    end in
  lower :: expansions.

(** [`${name} ${def}`] for one result. *)
Definition record_text (r : CandidateRecord) : string :=
  toLowerCase (default "" (r !! "device_name")) +:+ " "
    +:+ toLowerCase (default "" (r !! "definition")).

(** The inner loop counting [covered]. *)
Definition covered (coverageMap : list (list string)) (text : string) : nat :=
  foldl (λ n ms, if existsb (includes text) ms then S n else n) 0 coverageMap.

Definition Qnat (n : nat) : Q := inject_Z (Z.of_nat n).

Definition scoreResults (results : list CandidateRecord) (originalTerms : list string) : Q :=
  if (length results =? 0) || (length originalTerms =? 0) then 0%Q
  else
    let coverageMap := matchStrings <$> originalTerms in
    let totalScore :=
      foldl (λ total r,
               (total + Qnat (covered coverageMap (record_text r))
                          / Qnat (length coverageMap))%Q)
            0%Q results in
    (totalScore / Qnat (length results))%Q.

(** ** Validation and query syntax *)

Definition is_letter (c : ascii) : bool :=
  let n := nat_of_ascii c in
  ((65 <=? n) && (n <=? 90)) || ((97 <=? n) && (n <=? 122)).

Definition is_digit (c : ascii) : bool :=
  let n := nat_of_ascii c in (48 <=? n) && (n <=? 57).

Fixpoint all_chars (p : ascii → bool) (s : string) : bool :=
  match s with
  | EmptyString => true
  | String c s' => p c && all_chars p s'
  end.

(** [/^[A-Z]{3}$/i.test(s)]. *)
Definition PRODUCT_CODE_RE (s : string) : bool :=
  (String.length s =? 3) && all_chars is_letter s.

(** [/^K\d{6,7}$/i.test(s)] and [/^P\d{6}$/i.test(s)]. *)
Definition K_NUMBER_RE (s : string) : bool :=
  match s with
  | String c d =>
      (lower_ascii c =? "k")%char && all_chars is_digit d
        && ((String.length d =? 6) || (String.length d =? 7))
  | EmptyString => false
  end.

Definition PMA_NUMBER_RE (s : string) : bool :=
  match s with
  | String c d =>
      (lower_ascii c =? "p")%char && all_chars is_digit d && (String.length d =? 6)
  | EmptyString => false
  end.

(** The three messages of [validateProductCode]. *)
Inductive CodeProblem := LooksLike510k | LooksLikePMA | NotThreeLetters.

Definition validateProductCode (value : string) : option CodeProblem :=
  if K_NUMBER_RE value then Some LooksLike510k
  else if PMA_NUMBER_RE value then Some LooksLikePMA
  else if negb (PRODUCT_CODE_RE value) then Some NotThreeLetters
  else None.

Definition buildSearchTerms (field query : string) : string :=
  let terms := split_ws (trim query) in
  if length terms =? 1 then field +:+ ":" +:+ nth 0 terms ""
  else join "+AND+" ((λ t, field +:+ ":" +:+ t) <$> terms).

(** JavaScript truthiness of an optional string argument. *)
Definition truthy (o : option string) : bool :=
  match o with
  | Some s => negb (String.eqb s "")
  | None => false
  end.

(** ** The remote service *)

(** The arguments of one [queryOpenFDA] call.  The URL it returns is a
    function of these, so the request stands for the URL below. *)
Record Request := {
  endpoint : string;
  searchParts : list string;
  limit : nat;
  sort : option string
}.

(** [OpenFDAResponse]; [error] holds the message of the error object. [meta]
    is read by the text formatting only and left out. *)
Record OpenFDAResponse := {
  error : option string;
  results : option (list CandidateRecord)
}.

(** The guard [!data.error && data.results && data.results.length > 0]. *)
Definition usable_results (data : OpenFDAResponse) : option (list CandidateRecord) :=
  match error data, results data with
  | None, Some (r :: rs) => Some (r :: rs)
  | _, _ => None
  end.

(** One entry of the [productCodes] map of the bridge. *)
Record CodeInfo := {
  code : string;
  deviceNames : list string;
  count : nat
}.

(** What the text built by a successful bridge is made from. *)
Record BridgeReport := {
  bridge_query : string;
  classificationResults : list CandidateRecord;
  classUrls : list Request;
  productCodes : list (string * CodeInfo);
  bridge_data : OpenFDAResponse;
  bridge_searchExpr : string
}.

(** The texts the tool can answer with, by the function that formats them. *)
Inductive ToolResult :=
  | MissingArguments
      (* "Error: Provide either product_code or query." *)
  | ValidationError (value : string) (problem : CodeProblem)
  | ErrorText (data : OpenFDAResponse) (url : Request)
      (* formatError(data, url) *)
  | NoClassificationFor (product_code : string) (url : Request)
  | ClassificationResults (data : OpenFDAResponse) (url : Request)
      (* formatClassificationResults(data, url) *)
  | BridgeText (report : BridgeReport)
  | NoResultsFound (query : string) (isAIQuery : bool).
      (* No classification results found for "query", then the suggestions *)

Definition MAX_API_CALLS : nat := 30.
Definition RELEVANCE_THRESHOLD : Q := (4 # 10)%Q.

Definition FILLER_WORDS : gset string :=
  list_to_set [
    "a"; "an"; "the"; "for"; "of"; "in"; "on"; "to"; "and"; "or"; "is"; "it";
    "what"; "how"; "which"; "my"; "with"; "from"; "that"; "this";
    "fda"; "class"; "device"; "medical"; "need"; "does"].

Definition GENERIC_510K_TERMS : gset string :=
  list_to_set [
    "artificial"; "intelligence"; "machine"; "learning"; "software"; "device";
    "system"; "detection"; "screening"; "diagnosis"; "diagnostic"; "analysis";
    "monitor"; "automated"; "computer"; "digital"; "algorithm"; "image";
    "processing"; "aided"; "based"; "clinical"; "decision"; "support"].

Definition aiTerms : list string :=
  ["ai"; "ml"; "algorithm"; "machine learning"; "deep learning";
   "artificial intelligence"; "samd"; "software"].

Definition FIELDS : list string := ["device_name"; "definition"].

(** ** Term selection of the broadening loop *)

(** [terms.filter((t) => !FILLER_WORDS.has(t.toLowerCase()) && t.length > 1)]. *)
Definition is_meaningful (t : string) : bool :=
  negb (bool_decide (toLowerCase t ∈ FILLER_WORDS)) && (1 <? String.length t).

Definition meaningful (terms : list string) : list string :=
  List.filter is_meaningful terms.

Definition termsToUse (terms : list string) : list string :=
  if 2 <=? length (meaningful terms) then meaningful terms else terms.

(** The array [combos] built from [allCombos] for one term list. *)
Definition combos (termsToUse : list string) : list (list string) :=
  let n := length termsToUse in
  let allCombos := generateCombinations termsToUse in
  let fullLength := List.filter (λ c, length c =? n) allCombos in
  let shortCombos :=
    List.filter (λ c, (2 <=? length c) && (length c <=? 3) && (length c <? n)) allCombos in
  let mediumCombos := List.filter (λ c, (3 <? length c) && (length c <? n)) allCombos in
  let singles := List.filter (λ c, length c =? 1) allCombos in
  fullLength ++ shortCombos ++ mediumCombos ++ singles.

(** ** Candidate queries of the bridge *)

Definition medicalTerms (terms : list string) : list string :=
  List.filter (λ t, negb (bool_decide (toLowerCase t ∈ GENERIC_510K_TERMS))) terms.

Definition pairAndUp (terms : list string) : list (list string) :=
  take 8 (List.filter (λ c, 2 <=? length c) (generateCombinations terms)).

Definition medicalSingles (terms : list string) : list (list string) :=
  (λ t, [t]) <$> List.filter (λ t, 5 <=? String.length t) (medicalTerms terms).

Definition topCombos (terms : list string) : list (list string) :=
  pairAndUp terms ++ medicalSingles terms.

(** Reading and updating the insertion-ordered [Map] of product codes. *)
Fixpoint codes_get (m : list (string * CodeInfo)) (pc : string) : option CodeInfo :=
  match m with
  | [] => None
  | (k, v) :: m' => if String.eqb k pc then Some v else codes_get m' pc
  end.

Fixpoint codes_update (m : list (string * CodeInfo)) (pc : string) (f : CodeInfo → CodeInfo)
  : list (string * CodeInfo) :=
  match m with
  | [] => []
  | (k, v) :: m' => if String.eqb k pc then (k, f v) :: m' else (k, v) :: codes_update m' pc f
  end.

(** One iteration of [for (const r of data.results)] in the bridge. *)
Definition add_code (m : list (string * CodeInfo)) (r : CandidateRecord)
  : list (string * CodeInfo) :=
  match toUpperCase <$> (r !! "product_code") with
  | None => m
  | Some pc =>
      if negb (truthy (Some pc)) || negb (PRODUCT_CODE_RE pc) then m
      else
        match codes_get m pc with
        | Some _ =>
            codes_update m pc (λ existing,
              {| code := code existing;
                 deviceNames :=
                   match r !! "device_name" with
                   | Some name =>
                       if truthy (Some name) && negb (bool_decide (name ∈ deviceNames existing))
                       then deviceNames existing ++ [name] else deviceNames existing
                   | None => deviceNames existing
                   end;
                 count := S (count existing) |})
        | None =>
            m ++ [(pc, {| code := pc;
                          deviceNames :=
                            match r !! "device_name" with
                            | Some name => if truthy (Some name) then [name] else []
                            | None => []
                            end;
                          count := 1 |})]
        end
  end.

Definition collect_codes (rs : list CandidateRecord) : list (string * CodeInfo) :=
  foldl add_code [] rs.

(** ** The search loops *)

(** What the external calls leave behind: the state of the service and the
    log of the invocations so far, oldest first, each with its response. *)
Record IO (World : Type) := {
  world : World;
  calls : list (Request * OpenFDAResponse)
}.
Arguments world {World} _.
Arguments calls {World} _.

(** The sequence of requests issued. *)
Definition requests {World : Type} (o : IO World) : list Request := (calls o).*1.

(** [bestWeak]. *)
Record WeakMatch := {
  weak_data : OpenFDAResponse;
  weak_url : Request;
  weak_score : Q
}.

(** The mutable variables of the broadening loop. *)
Record Search (World : Type) := {
  apiCalls : nat;
  bestWeak : option WeakMatch;
  io : IO World
}.
Arguments apiCalls {World} _.
Arguments bestWeak {World} _.
Arguments io {World} _.

(** A loop either ran to its end (or to a [break]) or hit a [return]. *)
Inductive Flow (World St : Type) :=
  | Returned (r : ToolResult) (out : IO World)
  | Running (st : St).
Arguments Returned {World St} _ _.
Arguments Running {World St} _.

Section Engine.
Context {World : Type}.
Variable queryOpenFDA : World → Request → OpenFDAResponse * World.

(** [await queryOpenFDA(...)], logged. *)
Definition call (o : IO World) (req : Request) : OpenFDAResponse * IO World :=
  let '(data, w) := queryOpenFDA (world o) req in
  (data, {| world := w; calls := calls o ++ [(req, data)] |}).

Variable device_class : option string.
Variable resultLimit : nat.

Definition class_part : list string :=
  match device_class with
  | Some c => if truthy device_class then ["device_class:" +:+ c] else []
  | None => []
  end.

(** The request of one attempt of the broadening loop. *)
Definition attempt (field : string) (combo : list string) : Request :=
  {| endpoint := "classification";
     searchParts := buildSearchTerms field (join " " combo) :: class_part;
     limit := resultLimit;
     sort := None |}.

Variable originalTerms : list string.

(** The body of [for (const field of fields)] after the budget test: one
    query, then the evaluation of its response. *)
Definition try_field (termsToUse combo : list string) (field : string)
    (s : Search World) : Flow World (Search World) :=
  let url := attempt field combo in
  let '(data, o) := call (io s) url in
  let s1 := {| apiCalls := S (apiCalls s); bestWeak := bestWeak s; io := o |} in
  match usable_results data with
  | Some rs =>
      let score := scoreResults rs originalTerms in
      if (length termsToUse <=? length combo) || Qle_bool RELEVANCE_THRESHOLD score
      then Returned (ClassificationResults data url) o
      else
        let better :=
          match bestWeak s1 with
          | None => true
          | Some b => negb (Qle_bool score (weak_score b))
          end in
        Running
          (if better
           then {| apiCalls := apiCalls s1;
                   bestWeak := Some {| weak_data := data; weak_url := url;
                                       weak_score := score |};
                   io := o |}
           else s1)
  | None => Running s1
  end.

(** [for (const field of fields)] for one [combo]. *)
Fixpoint fields_loop (termsToUse combo : list string) (fields : list string)
    (s : Search World) : Flow World (Search World) :=
  match fields with
  | [] => Running s
  | field :: fields' =>
      if MAX_API_CALLS <=? apiCalls s then Running s
      else
        match try_field termsToUse combo field s with
        | Returned r o => Returned r o
        | Running s' => fields_loop termsToUse combo fields' s'
        end
  end.

(** [for (const combo of combos)]. *)
Fixpoint combos_loop (termsToUse : list string) (cs : list (list string))
    (s : Search World) : Flow World (Search World) :=
  match cs with
  | [] => Running s
  | combo :: cs' =>
      if MAX_API_CALLS <=? apiCalls s then Running s
      else
        match fields_loop termsToUse combo FIELDS s with
        | Returned r o => Returned r o
        | Running s' => combos_loop termsToUse cs' s'
        end
  end.

(** [for (const { terms } of termSets)]. *)
Fixpoint termSets_loop (termSets : list (list string)) (s : Search World)
    : Flow World (Search World) :=
  match termSets with
  | [] => Running s
  | terms :: termSets' =>
      match combos_loop (termsToUse terms) (combos (termsToUse terms)) s with
      | Returned r o => Returned r o
      | Running s' => termSets_loop termSets' s'
      end
  end.

(** ** The 510(k) bridge *)

Definition lookup_request (pc : string) : Request :=
  {| endpoint := "classification";
     searchParts := ("product_code:" +:+ pc) :: class_part;
     limit := 1;
     sort := None |}.

(** [for (const [pc] of productCodes)]: one classification lookup per key. *)
Fixpoint lookup_codes (pcs : list string)
    (acc : list CandidateRecord * list Request) (o : IO World)
    : (list CandidateRecord * list Request) * IO World :=
  match pcs with
  | [] => (acc, o)
  | pc :: pcs' =>
      let '(classData, o') := call o (lookup_request pc) in
      match usable_results classData with
      | Some rs => lookup_codes pcs' (acc.1 ++ rs, acc.2 ++ [lookup_request pc]) o'
      | None => lookup_codes pcs' acc o'
      end
  end.

Definition bridge_request (combo : list string) : Request :=
  {| endpoint := "510k";
     searchParts := [buildSearchTerms "device_name" (join " " combo)];
     limit := 20;
     sort := Some "decision_date:desc" |}.

(** [for (const combo of topCombos)]; the state is [seen510k] and the
    service. *)
Fixpoint bridge_combos (query : string) (cs : list (list string))
    (st : gset string * IO World) : Flow World (gset string * IO World) :=
  match cs with
  | [] => Running st
  | combo :: cs' =>
      let key := join "+" combo in
      if decide (key ∈ st.1) then bridge_combos query cs' st
      else
        let seen := {[key]} ∪ st.1 in
        let '(data, o) := call st.2 (bridge_request combo) in
        match usable_results data with
        | Some rs =>
            let pcs := collect_codes rs in
            if length pcs =? 0 then bridge_combos query cs' (seen, o)
            else
              let '((found, urls), o') := lookup_codes pcs.*1 ([], []) o in
              if length found =? 0 then bridge_combos query cs' (seen, o')
              else
                Returned
                  (BridgeText
                     {| bridge_query := query;
                        classificationResults := found;
                        classUrls := urls;
                        productCodes := pcs;
                        bridge_data := data;
                        bridge_searchExpr :=
                          buildSearchTerms "device_name" (join " " combo) |})
                  o'
        | None => bridge_combos query cs' (seen, o)
        end
  end.

Fixpoint bridge_termSets (query : string) (termSets : list (list string))
    (st : gset string * IO World) : Flow World (gset string * IO World) :=
  match termSets with
  | [] => Running st
  | terms :: termSets' =>
      match bridge_combos query (topCombos terms) st with
      | Returned r o => Returned r o
      | Running st' => bridge_termSets query termSets' st'
      end
  end.

(** [bridgeVia510k]; [None] is its [null]. *)
Definition bridgeVia510k (query : string) (expandedTerms : list string) (o : IO World)
    : option ToolResult * IO World :=
  match bridge_termSets query [expandedTerms; originalTerms] (∅, o) with
  | Returned r o' => (Some r, o')
  | Running st => (None, st.2)
  end.
End Engine.

(** ** The tool handler *)

Section Handler.
Context {World : Type}.
Variable queryOpenFDA : World → Request → OpenFDAResponse * World.

(** The list [termSets] of the broadening loop. *)
Definition termSets (originalTerms : list string) : list (list string) :=
  let expandedTerms := expandSynonyms originalTerms in
  let hasExpansion :=
    negb (String.eqb (join " " expandedTerms) (join " " originalTerms)) in
  (if hasExpansion then [expandedTerms] else []) ++ [originalTerms].

Definition isAIQuery (originalTerms : list string) : bool :=
  existsb (λ t, bool_decide (toLowerCase t ∈ aiTerms)) originalTerms.

(** The multi-pass query search: everything after the direct lookup. *)
Definition query_search (query : string) (device_class : option string)
    (resultLimit : nat) (o : IO World) : ToolResult * IO World :=
  let originalTerms := split_ws (trim query) in
  let expandedTerms := expandSynonyms originalTerms in
  let start := {| apiCalls := 0; bestWeak := None; io := o |} in
  match termSets_loop queryOpenFDA device_class resultLimit originalTerms
          (termSets originalTerms) start with
  | Returned r o' => (r, o')
  | Running s =>
      match bestWeak s with
      | Some b => (ClassificationResults (weak_data b) (weak_url b), io s)
      | None =>
          match bridgeVia510k queryOpenFDA device_class originalTerms
                  query expandedTerms (io s) with
          | (Some bridgeResult, o') => (bridgeResult, o')
          | (None, o') => (NoResultsFound query (isAIQuery originalTerms), o')
          end
      end
  end.

(** The direct product code lookup. *)
Definition direct_lookup (product_code : string) (device_class : option string)
    (resultLimit : nat) (o : IO World) : ToolResult * IO World :=
  match validateProductCode product_code with
  | Some problem => (ValidationError product_code problem, o)
  | None =>
      let url :=
        {| endpoint := "classification";
           searchParts :=
             ("product_code:" +:+ toUpperCase product_code) :: class_part device_class;
           limit := resultLimit;
           sort := None |} in
      let '(data, o') := call queryOpenFDA o url in
      match error data with
      | Some _ => (ErrorText data url, o')
      | None =>
          match results data with
          | Some (_ :: _) => (ClassificationResults data url, o')
          | _ => (NoClassificationFor (toUpperCase product_code) url, o')
          end
      end
  end.

Definition classify_device (product_code query device_class : option string)
    (limit : option nat) (w : World) : ToolResult * IO World :=
  let o := {| world := w; calls := [] |} in
  if negb (truthy product_code) && negb (truthy query) then (MissingArguments, o)
  else
    let resultLimit := default 10 limit in
    let '(product_code, query) :=
      if negb (truthy product_code) && truthy query
         && PRODUCT_CODE_RE (trim (default "" query))
      then (Some (toUpperCase (trim (default "" query))), None)
      else (product_code, query) in
    if truthy product_code
    then direct_lookup (default "" product_code) device_class resultLimit o
    else query_search (default "" query) device_class resultLimit o.
End Handler.

(** ** Reference definitions used in the statements *)

(** The ascending lists of [k] indices drawn from [start .. start+m-1], in
    lexicographic order. *)
Fixpoint subsets (m start k : nat) {struct m} : list (list nat) :=
  match k, m with
  | O, _ => [[]]
  | S _, O => []
  | S k', S m' =>
      ((start ::.) <$> subsets m' (S start) k') ++ subsets m' (S start) k
  end.

(** Binomial coefficients by Pascal's rule. *)
Fixpoint binom (n k : nat) {struct n} : nat :=
  match k, n with
  | O, _ => 1
  | S _, O => 0
  | S k', S n' => binom n' k' + binom n' k
  end.

(** [binom n 1 + ... + binom n j]. *)
Fixpoint binom_sum (n j : nat) : nat :=
  match j with
  | O => 0
  | S j' => binom n j + binom_sum n j'
  end.

(** An index list is a contiguous run when it is [a, a+1, ..]. *)
Definition contiguous_run (s : list nat) : Prop := ∃ a, s = seq a (length s).

(** [s] occurs in [text]. *)
Definition substring (s text : string) : Prop := ∃ a b, text = a +:+ s +:+ b.

(** Keep the first of the words that agree up to case ([seen] holds the
    lowercase forms already met). *)
Fixpoint dedup_ci (seen : gset string) (ws : list string) : list string :=
  match ws with
  | [] => []
  | w :: ws' =>
      if decide (toLowerCase w ∈ seen) then dedup_ci seen ws'
      else w :: dedup_ci ({[toLowerCase w]} ∪ seen) ws'
  end.

(** The words a term stands for: those of its replacement phrases, or itself. *)
Definition replacement_words (term : string) : list string :=
  match SYNONYMS !! toLowerCase term with
  | Some syns => syns ≫= split_ws
  | None => [term]
  end.









(** The terms that are not filler words. *)
Definition nonfiller (terms : list string) : list string :=
  List.filter (λ t, negb (bool_decide (toLowerCase t ∈ FILLER_WORDS))) terms.

(** The order in which the broadening loop takes the sizes for [n] terms:
    the full length, then 3 and 2, then [n-1] down to 4, then 1. *)
Definition size_order (n : nat) : list nat :=
  [n] ++ rev (seq 2 (Nat.min 4 n - 2)) ++ rev (seq 4 (n - 4)) ++ [1].

(** The service state and log a loop ends with. *)
Definition flow_io {World : Type} (f : Flow World (Search World)) : IO World :=
  match f with
  | Returned _ o => o
  | Running s => io s
  end.

(** A loop kept [I] at its end, or returned with [R]. *)
Definition flow_post {World St : Type} (I : St → Prop)
    (R : ToolResult → IO World → Prop) (f : Flow World St) : Prop :=
  match f with
  | Returned r o => R r o
  | Running s => I s
  end.

(** The two queries of one combination, name field first. *)
Definition attempts (device_class : option string) (resultLimit : nat)
    (combo : list string) : list Request :=
  [attempt device_class resultLimit "device_name" combo;
   attempt device_class resultLimit "definition" combo].

(** All queries of the broadening loop in program order, were the budget and
    the early returns absent. *)
Definition all_attempts (device_class : option string) (resultLimit : nat)
    (termSets : list (list string)) : list Request :=
  termSets ≫= (λ terms, combos (termsToUse terms) ≫= attempts device_class resultLimit).

(** What a loop over the request list [l] may do from the state [s]: it
    issues the first [k] requests of [l], and if it did not return it counted
    them and stopped short of the end of [l] only with the budget spent. *)
Definition issues {World : Type} (l : list Request) (s : Search World)
    (f : Flow World (Search World)) : Prop :=
  ∃ k, k ≤ length l
    ∧ requests (flow_io f) = requests (io s) ++ take k l
    ∧ match f with
      | Running s' =>
          apiCalls s' = apiCalls s + k ∧ (k = length l ∨ MAX_API_CALLS ≤ apiCalls s')
      | Returned _ _ => True
      end.

(** A service that answers every request with the rate-limit error. *)
Definition rate_limited (w : unit) (req : Request) : OpenFDAResponse * unit :=
  ({| error := Some "openFDA rate limit reached (240 req/min). Try again shortly.";
      results := None |}, tt).

(** The state the broadening loop starts in. *)
Definition fresh {World : Type} (w : World) : Search World :=
  {| apiCalls := 0; bestWeak := None; io := {| world := w; calls := [] |} |}.

(** The service state and log a loop of the bridge ends with. *)
Definition bridge_io {World : Type} (f : Flow World (gset string * IO World)) : IO World :=
  match f with
  | Returned _ o => o
  | Running st => st.2
  end.

(** Keep the first of the combinations that have the same [seen510k] key. *)
Fixpoint dedup_keys (seen : gset string) (cs : list (list string)) : list (list string) :=
  match cs with
  | [] => []
  | combo :: cs' =>
      if decide (join "+" combo ∈ seen) then dedup_keys seen cs'
      else combo :: dedup_keys ({[join "+" combo]} ∪ seen) cs'
  end.

(** The score of a logged response that carries results. *)
Definition scored (originalTerms : list string) (e : Request * OpenFDAResponse) (q : Q)
    : Prop :=
  ∃ rs, usable_results e.2 = Some rs ∧ q = scoreResults rs originalTerms.

(** What the broadening loop knows while it runs: every response with
    results scored below the threshold, and [bestWeak] is the first of them
    with the highest score. *)
Definition weak_invariant {World : Type} (originalTerms : list string)
    (s : Search World) : Prop :=
  (∀ e q, e ∈ calls (io s) → scored originalTerms e q → (q < RELEVANCE_THRESHOLD)%Q)
  ∧ match bestWeak s with
    | None => ∀ e, e ∈ calls (io s) → usable_results e.2 = None
    | Some b =>
        ∃ l1 l2,
          calls (io s) = l1 ++ (weak_url b, weak_data b) :: l2
          ∧ scored originalTerms (weak_url b, weak_data b) (weak_score b)
          ∧ (∀ e q, e ∈ l1 → scored originalTerms e q → (q < weak_score b)%Q)
          ∧ (∀ e q, e ∈ l2 → scored originalTerms e q → (q <= weak_score b)%Q)
    end.

(** What an immediate return of the broadening loop carries: the response of
    the last call, which has results and either came from a full-length
    combination or scored at least the threshold. *)
Definition strong_return {World : Type} (device_class : option string)
    (resultLimit : nat) (originalTerms : list string) (tsets : list (list string))
    (r : ToolResult) (o : IO World) : Prop :=
  ∃ url data rs terms combo field log,
    r = ClassificationResults data url
    ∧ calls o = log ++ [(url, data)]
    ∧ usable_results data = Some rs
    ∧ terms ∈ tsets ∧ combo ∈ combos (termsToUse terms) ∧ field ∈ FIELDS
    ∧ url = attempt device_class resultLimit field combo
    ∧ (length (termsToUse terms) ≤ length combo
       ∨ (RELEVANCE_THRESHOLD <= scoreResults rs originalTerms)%Q)
    ∧ (∀ e q, e ∈ log → scored originalTerms e q → (q < RELEVANCE_THRESHOLD)%Q).

(** A request to the 510(k) collection. *)
Definition is_510k (req : Request) : bool := String.eqb (endpoint req) "510k".

(** The product code a 510(k) record counts for, if it has a valid one. *)
Definition record_code (r : CandidateRecord) : option string :=
  match toUpperCase <$> (r !! "product_code") with
  | Some pc => if PRODUCT_CODE_RE pc then Some pc else None
  | None => None
  end.

(** A service with one classification entry, DXN, found by name through the
    word "pressure" and by its code, and one 510(k) record that carries the
    code and is found through the word "cuff". *)
Definition dxn : CandidateRecord :=
  {[ "product_code" := "DXN";
     "device_name" := "System, Measurement, Blood-Pressure, Non-Invasive";
     "definition" := "Measures blood pressure" ]}.

Definition k_cuff : CandidateRecord :=
  {[ "product_code" := "dxn"; "device_name" := "SmartCuff Pro" ]}.

(** Some part of the search expression contains [word]. *)
Definition mentions (word : string) (req : Request) : bool :=
  existsb (λ part, includes part word) (searchParts req).

Definition small_service (w : unit) (req : Request) : OpenFDAResponse * unit :=
  let found rs := ({| error := None; results := Some rs |}, tt) in
  if String.eqb (endpoint req) "510k" then
    if mentions "device_name:cuff" req then found [k_cuff] else found []
  else if mentions "product_code:DXN" req then found [dxn]
  else if mentions "device_name:pressure" req && negb (mentions "AND" req) then found [dxn]
  else found [].

(** ** Dates and links *)

(** [/^\d{4}-\d{2}-\d{2}$/.test(s)]. *)
Definition DATE_RE (s : string) : bool :=
  match list_ascii_of_string s with
  | [y1; y2; y3; y4; h1; m1; m2; h2; d1; d2] =>
      is_digit y1 && is_digit y2 && is_digit y3 && is_digit y4
      && (h1 =? "-")%char && is_digit m1 && is_digit m2
      && (h2 =? "-")%char && is_digit d1 && is_digit d2
  | _ => false
  end.

(** [/^\d{8}$/.test(s)], the test inside [normalizeDateResponse]. *)
Definition EIGHT_DIGITS_RE (s : string) : bool :=
  (String.length s =? 8) && all_chars is_digit s.

(** The one message of [validateDate]. *)
Inductive DateProblem := NotYearMonthDay.

Definition validateDate (value : string) : option DateProblem :=
  if negb (DATE_RE value) then Some NotYearMonthDay else None.

(** [date.replace(/-/g, "")]. *)
Fixpoint stripDashes (date : string) : string :=
  match date with
  | EmptyString => EmptyString
  | String c date' =>
      if (c =? "-")%char then stripDashes date' else String c (stripDashes date')
  end.

(** [s.slice(from, to)] for indices that are not negative. *)
Definition slice (from to : nat) (s : string) : string :=
  String.substring from (to - from) s.

Definition normalizeDateResponse (date : option string) : option string :=
  match date with
  | None => None
  | Some d =>
      if negb (truthy date) then None
      else if EIGHT_DIGITS_RE d
           then Some (slice 0 4 d +:+ "-" +:+ slice 4 6 d +:+ "-" +:+ slice 6 8 d)
      else if DATE_RE d then Some d
      else Some d
  end.

(** [s.split(sep)] for a separator of one character: the pieces between the
    occurrences of [sep], empty pieces included. *)
Fixpoint split_char_go (sep : ascii) (cur : string) (s : string) : list string :=
  match s with
  | EmptyString => [String.rev cur]
  | String c s' =>
      if (c =? sep)%char then String.rev cur :: split_char_go sep EmptyString s'
      else split_char_go sep (String c cur) s'
  end.

Definition split_char (sep : ascii) (s : string) : list string :=
  split_char_go sep EmptyString s.

Definition linkECFR (regulationNumber : string) : string :=
  let parts := split_char "." regulationNumber in
  if negb (length parts =? 2) then ""
  else "https://www.ecfr.gov/current/title-21/chapter-I/subchapter-H/part-"
         +:+ nth 0 parts "" +:+ "/section-" +:+ regulationNumber.

(** How often a character occurs in a string. *)
Fixpoint count_char (c : ascii) (s : string) : nat :=
  match s with
  | EmptyString => 0
  | String c' s' => (if (c' =? c)%char then 1 else 0) + count_char c s'
  end.

(** ** Words *)

(** No character of [s] is white space. *)
Definition no_space (s : string) : bool := all_chars (λ c, negb (isSpace c)) s.

(** [s] is a word: not empty, and without white space. *)
Definition word (s : string) : bool := negb (String.eqb s "") && no_space s.

(** Every character of [s] is white space. *)
Definition blank (s : string) : bool := all_chars isSpace s.

(** [s] does not begin with white space. *)
Definition head_ok (s : string) : bool :=
  match s with
  | EmptyString => true
  | String c _ => negb (isSpace c)
  end.


(** ** The search tools *)

(** What a search tool answers with, by the text it builds.  The listing of
    the records is built from [data] and the request alone. *)
Inductive SearchResult :=
  | MissingFilters
      (* "Error: Provide at least one of ..." *)
  | BadProductCode (value : string) (problem : CodeProblem)
      (* "Validation error: " + validateProductCode(product_code) *)
  | BadNumber (value : string)
      (* "... is not a valid 510(k) number" / "... is not a valid PMA number" *)
  | BadDate (argument value : string)
      (* "Validation error (date_from): ..." / "Validation error (date_to): ..." *)
  | SearchError (data : OpenFDAResponse) (url : Request)
      (* formatError(data, url) *)
  | NoRecords (url : Request)
  | Records (data : OpenFDAResponse) (url : Request).

(** The double quote character, and a text between two of them. *)
Definition quote : string := String (ascii_of_nat 34) EmptyString.

Definition quoted (s : string) : string := quote +:+ s +:+ quote.

(** [if (arg) searchParts.push(f(arg))]. *)
Definition part_if (arg : option string) (f : string → string) : list string :=
  match arg with
  | Some v => if truthy arg then [f v] else []
  | None => []
  end.

(** [if (product_code) { const err = validateProductCode(product_code);
    if (err) return ... }]. *)
Definition checkProductCode (product_code : option string) : option SearchResult :=
  match product_code with
  | Some v =>
      if truthy product_code then
        match validateProductCode v with
        | Some err => Some (BadProductCode v err)
        | None => None
        end
      else None
  | None => None
  end.

(** [if (date) { const err = validateDate(date); if (err) return ... }]. *)
Definition checkDate (argument : string) (date : option string) : option SearchResult :=
  match date with
  | Some v =>
      if truthy date then
        match validateDate v with
        | Some _ => Some (BadDate argument v)
        | None => None
        end
      else None
  | None => None
  end.

(** The date range of the 510(k), PMA and recall searches:
    [if (date_from || date_to) { const from = date_from ?? earliest;
    const to = date_to ?? today; searchParts.push(...) }]. *)
Definition dateRange (field earliest today : string) (date_from date_to : option string)
  : list string :=
  if truthy date_from || truthy date_to then
    let from := default earliest date_from in
    let to := default today date_to in
    [field +:+ ":[" +:+ from +:+ "+TO+" +:+ to +:+ "]"]
  else [].

(** The same for adverse events, where the bounds lose their dashes. *)
Definition dateRangeMAUDE (today : string) (date_from date_to : option string)
  : list string :=
  if truthy date_from || truthy date_to then
    let from := stripDashes (default "2000-01-01" date_from) in
    let to := stripDashes (default today date_to) in
    ["date_received:[" +:+ from +:+ "+TO+" +:+ to +:+ "]"]
  else [].

(** What every search tool does with the response. *)
Definition answer (data : OpenFDAResponse) (url : Request) : SearchResult :=
  match error data with
  | Some _ => SearchError data url
  | None =>
      match results data with
      | Some (_ :: _) => Records data url
      | _ => NoRecords url
      end
  end.

Section Tools.
Context {World : Type}.
Variable queryOpenFDA : World → Request → OpenFDAResponse * World.

(** [new Date().toISOString().slice(0, 10)] at the time of the call. *)
Variable today : string.

Definition search_510k
    (product_code k_number applicant device_name decision clearance_type
       advisory_committee date_from date_to : option string)
    (limit : option nat) (w : World) : SearchResult * IO World :=
  let o := {| world := w; calls := [] |} in
  if negb (truthy product_code) && negb (truthy k_number)
     && negb (truthy applicant) && negb (truthy device_name)
  then (MissingFilters, o)
  else
    match checkProductCode product_code with
    | Some err => (err, o)
    | None =>
    if truthy k_number && negb (K_NUMBER_RE (default "" k_number))
    then (BadNumber (default "" k_number), o)
    else
    match checkDate "date_from" date_from with
    | Some err => (err, o)
    | None =>
    match checkDate "date_to" date_to with
    | Some err => (err, o)
    | None =>
        let searchParts :=
          if truthy k_number
          then ["k_number:" +:+ toUpperCase (default "" k_number)]
          else
            part_if product_code (λ v, "product_code:" +:+ toUpperCase v)
            ++ part_if applicant (λ v, "applicant:" +:+ quoted v)
            ++ part_if device_name (λ v, "device_name:" +:+ quoted v)
            ++ part_if decision (λ v, "decision_code:" +:+ v)
            ++ part_if clearance_type (λ v, "clearance_type:" +:+ quoted v)
            ++ part_if advisory_committee
                 (λ v, "advisory_committee:" +:+ toUpperCase v)
            ++ dateRange "decision_date" "1976-01-01" today date_from date_to in
        let url :=
          {| endpoint := "510k";
             searchParts := searchParts;
             limit := default 10 limit;
             sort := if truthy k_number then None else Some "decision_date:desc" |} in
        let '(data, o') := call queryOpenFDA o url in
        (answer data url, o')
    end end end.

Definition search_pma
    (product_code pma_number applicant trade_name advisory_committee
       date_from date_to : option string)
    (limit : option nat) (w : World) : SearchResult * IO World :=
  let o := {| world := w; calls := [] |} in
  if negb (truthy product_code) && negb (truthy pma_number)
     && negb (truthy applicant) && negb (truthy trade_name)
  then (MissingFilters, o)
  else
    match checkProductCode product_code with
    | Some err => (err, o)
    | None =>
    if truthy pma_number && negb (PMA_NUMBER_RE (default "" pma_number))
    then (BadNumber (default "" pma_number), o)
    else
    match checkDate "date_from" date_from with
    | Some err => (err, o)
    | None =>
    match checkDate "date_to" date_to with
    | Some err => (err, o)
    | None =>
        let searchParts :=
          if truthy pma_number
          then ["pma_number:" +:+ toUpperCase (default "" pma_number)]
          else
            part_if product_code (λ v, "product_code:" +:+ toUpperCase v)
            ++ part_if applicant (λ v, "applicant:" +:+ quoted v)
            ++ part_if trade_name (λ v, "trade_name:" +:+ quoted v)
            ++ part_if advisory_committee
                 (λ v, "advisory_committee:" +:+ toUpperCase v)
            ++ dateRange "decision_date" "1976-01-01" today date_from date_to in
        let url :=
          {| endpoint := "pma";
             searchParts := searchParts;
             limit := default 10 limit;
             sort := if truthy pma_number then None else Some "decision_date:desc" |} in
        let '(data, o') := call queryOpenFDA o url in
        (answer data url, o')
    end end end.

Definition search_recalls
    (product_code recalling_firm status date_from date_to : option string)
    (limit : option nat) (w : World) : SearchResult * IO World :=
  let o := {| world := w; calls := [] |} in
  if negb (truthy product_code) && negb (truthy recalling_firm)
  then (MissingFilters, o)
  else
    match checkProductCode product_code with
    | Some err => (err, o)
    | None =>
    match checkDate "date_from" date_from with
    | Some err => (err, o)
    | None =>
    match checkDate "date_to" date_to with
    | Some err => (err, o)
    | None =>
        let searchParts :=
          part_if product_code (λ v, "product_code:" +:+ toUpperCase v)
          ++ part_if recalling_firm (λ v, "recalling_firm:" +:+ quoted v)
          ++ part_if status (λ v, "recall_status:" +:+ quoted v)
          ++ dateRange "event_date_initiated" "2002-01-01" today date_from date_to in
        let url :=
          {| endpoint := "recall";
             searchParts := searchParts;
             limit := default 10 limit;
             sort := Some "event_date_initiated:desc" |} in
        let '(data, o') := call queryOpenFDA o url in
        (answer data url, o')
    end end end.

Definition search_adverse_events
    (product_code brand_name manufacturer event_type report_source
       date_from date_to : option string)
    (limit : option nat) (w : World) : SearchResult * IO World :=
  let o := {| world := w; calls := [] |} in
  if negb (truthy product_code) && negb (truthy brand_name)
     && negb (truthy manufacturer)
  then (MissingFilters, o)
  else
    match checkProductCode product_code with
    | Some err => (err, o)
    | None =>
    match checkDate "date_from" date_from with
    | Some err => (err, o)
    | None =>
    match checkDate "date_to" date_to with
    | Some err => (err, o)
    | None =>
        let searchParts :=
          part_if product_code
            (λ v, "device.device_report_product_code:" +:+ toUpperCase v)
          ++ part_if brand_name (λ v, "device.brand_name:" +:+ quoted v)
          ++ part_if manufacturer (λ v, "device.manufacturer_d_name:" +:+ quoted v)
          ++ part_if event_type (λ v, "event_type:" +:+ quoted v)
          ++ part_if report_source (λ v, "report_source_code:" +:+ quoted v)
          ++ dateRangeMAUDE today date_from date_to in
        let url :=
          {| endpoint := "event";
             searchParts := searchParts;
             limit := default 10 limit;
             sort := Some "date_received:desc" |} in
        let '(data, o') := call queryOpenFDA o url in
        (answer data url, o')
    end end end.
End Tools.



(** ** What an answer of [classify_device] rests on *)

(** A request to the classification collection. *)
Definition is_classification (req : Request) : bool :=
  String.eqb (endpoint req) "classification".

(** No call of the log to the classification collection brought results. *)
Definition nothing_classified (log : list (Request * OpenFDAResponse)) : Prop :=
  ∀ e, e ∈ log → is_classification e.1 = true → usable_results e.2 = None.

(** The record was among the results of a logged call to the classification
    collection. *)
Definition classified (log : list (Request * OpenFDAResponse)) (r : CandidateRecord)
  : Prop :=
  ∃ e rs, e ∈ log ∧ is_classification e.1 = true
          ∧ usable_results e.2 = Some rs ∧ r ∈ rs.

(** What the log of the calls holds for each kind of answer. *)
Definition justified {World : Type} (r : ToolResult) (o : IO World) : Prop :=
  match r with
  | MissingArguments => calls o = []
  | ValidationError value problem =>
      calls o = [] ∧ validateProductCode value = Some problem
  | ErrorText data url => calls o = [(url, data)] ∧ error data ≠ None
  | NoClassificationFor _ url =>
      ∃ data, calls o = [(url, data)] ∧ error data = None
              ∧ usable_results data = None
  | ClassificationResults data url =>
      (url, data) ∈ calls o ∧ is_classification url = true
      ∧ usable_results data ≠ None
  | BridgeText report =>
      classificationResults report ≠ []
      ∧ Forall (classified (calls o)) (classificationResults report)
      ∧ ∃ url rs, (url, bridge_data report) ∈ calls o ∧ is_510k url = true
          ∧ usable_results (bridge_data report) = Some rs
          ∧ productCodes report = collect_codes rs
  | NoResultsFound _ _ => nothing_classified (calls o)
  end.

(** ** The product codes of a 510(k) response *)

(** The records of [rs] that count for the product code [pc]. *)
Definition records_of (pc : string) (rs : list CandidateRecord) : list CandidateRecord :=
  List.filter (λ r, bool_decide (record_code r = Some pc)) rs.

(** What [productCodes] holds for a code after the records [rs]: the code,
    the number of its records, and device names of its records, each once
    and none empty. *)
Definition entry_of (rs : list CandidateRecord) (pc : string) (info : CodeInfo) : Prop :=
  code info = pc
  ∧ count info = length (records_of pc rs)
  ∧ 1 ≤ count info
  ∧ NoDup (deviceNames info)
  ∧ ∀ name, name ∈ deviceNames info →
      name ≠ "" ∧ ∃ r, r ∈ records_of pc rs ∧ r !! "device_name" = Some name.

(** * Properties *)

(** ** Combination generator *)

Lemma bind_subsets picked k : ∀ m start,
  seq start m ≫= (λ i, ((picked ++ [i]) ++.) <$> subsets (start + m - S i) (S i) k)
  = (picked ++.) <$> subsets m start (S k).
Proof.
  induction m as [|m IH]; intros start; [done|].
  cbn [seq]. rewrite bind_cons.
  replace (start + S m - S start) with m by lia.
  cbn [subsets]. rewrite fmap_app, <- list_fmap_compose. f_equal.
  - apply list_fmap_ext. intros _ s _. cbn. by rewrite <- app_assoc.
  - rewrite <- IH. apply list_bind_ext; [|done].
    intros i. by replace (S start + m - S i) with (start + S m - S i) by lia.
Qed.

(** With enough fuel the generator yields [picked] followed by every
    ascending choice of the missing indices. *)
Lemma combine_subsets fuel n size : ∀ start picked,
  length picked ≤ size → size - length picked < fuel →
  combine fuel n size start picked
  = (picked ++.) <$> subsets (n - start) start (size - length picked).
Proof.
  induction fuel as [|fuel IH]; intros start picked Hle Hfuel; [lia|].
  cbn [combine]. destruct (Nat.eqb_spec (length picked) size) as [->|Hne].
  - rewrite Nat.sub_diag. destruct (n - start); cbn; by rewrite app_nil_r.
  - destruct (size - length picked) as [|k] eqn:Hk; [lia|].
    destruct (decide (start ≤ n)) as [Hs|Hs].
    + rewrite <- bind_subsets. apply list_bind_ext; [|done]. intros i.
      rewrite IH by (rewrite length_app; cbn; lia).
      rewrite length_app. cbn [length].
      replace (size - (length picked + 1)) with k by lia.
      by replace (start + (n - start)) with n by lia.
    + by replace (n - start) with 0 by lia.
Qed.

Lemma foldl_classify_combo l : ∀ a b,
  foldl classify_combo (a, b) l
  = (a ++ List.filter isContiguous l, b ++ List.filter (λ c, negb (isContiguous c)) l).
Proof.
  induction l as [|c l IH]; intros a b; cbn [foldl List.filter].
  - by rewrite !app_nil_r.
  - unfold classify_combo at 2. cbn [fst snd].
    destruct (isContiguous c); cbn [negb]; rewrite IH; by rewrite <- app_assoc.
Qed.

Lemma getCombinationIndices_eq n size :
  getCombinationIndices n size
  = List.filter isContiguous (subsets n 0 size)
      ++ List.filter (λ c, negb (isContiguous c)) (subsets n 0 size).
Proof.
  unfold getCombinationIndices.
  rewrite combine_subsets by (cbn; lia).
  cbn [length app]. rewrite !Nat.sub_0_r, list_fmap_id.
  by rewrite foldl_classify_combo.
Qed.

Lemma elem_of_subsets m : ∀ start k s,
  s ∈ subsets m start k ↔ s `sublist_of` seq start m ∧ length s = k.
Proof.
  induction m as [|m IH]; intros start k s.
  - destruct k as [|k]; cbn [subsets seq].
    + rewrite list_elem_of_singleton, sublist_nil_r. split; [by intros ->|by intros [-> _]].
    + rewrite elem_of_nil, sublist_nil_r. split; [done|by intros [-> ?]].
  - destruct k as [|k]; cbn [subsets seq].
    + rewrite list_elem_of_singleton. split.
      * intros ->. split; [apply sublist_nil_l|done].
      * intros [_ Hl]. by destruct s.
    + rewrite elem_of_app, list_elem_of_fmap, sublist_cons_r. setoid_rewrite IH.
      split.
      * intros [(s' & -> & Hs & Hl)|[Hs Hl]]; [|by auto].
        split; [right; eauto|cbn; lia].
      * intros [[Hs|(s' & -> & Hs)] Hl]; [by auto|].
        left. exists s'. cbn in Hl. split_and!; [done..|lia].
Qed.

Lemma NoDup_subsets m : ∀ start k, NoDup (subsets m start k).
Proof.
  induction m as [|m IH]; intros start [|k]; cbn [subsets];
    try apply NoDup_singleton; try apply NoDup_nil_2.
  apply NoDup_app. split_and!.
  - apply (NoDup_fmap_2 _), IH.
  - intros s (s' & -> & _)%list_elem_of_fmap [Hs _]%elem_of_subsets.
    assert (start ∈ seq (S start) m) as Hin.
    { eapply elem_of_sublist; [|exact Hs]. left. }
    apply elem_of_seq in Hin. lia.
  - apply IH.
Qed.

Lemma length_subsets m : ∀ start k, length (subsets m start k) = binom m k.
Proof.
  induction m as [|m IH]; intros start [|k]; cbn [subsets binom]; try done.
  by rewrite length_app, length_fmap, !IH.
Qed.

Lemma binom_gt n : ∀ k, n < k → binom n k = 0.
Proof.
  induction n as [|n IH]; intros [|k] Hk; cbn [binom]; try lia.
  rewrite !IH; lia.
Qed.

Lemma binom_sum_pascal n j :
  binom_sum (S n) (S j) = binom_sum n (S j) + binom_sum n j + 1.
Proof.
  induction j as [|j IH].
  - cbn. destruct n; cbn; lia.
  - change (binom_sum (S n) (S (S j)))
      with (binom (S n) (S (S j)) + binom_sum (S n) (S j)).
    rewrite IH. cbn [binom_sum binom]. lia.
Qed.

Lemma binom_sum_full n : binom_sum n n + 1 = 2 ^ n.
Proof.
  induction n as [|n IH]; [done|].
  rewrite binom_sum_pascal. cbn [binom_sum].
  rewrite binom_gt by lia. rewrite Nat.pow_succ_r'. lia.
Qed.

Lemma filter_partition_Permutation {A} (f : A → bool) (l : list A) :
  List.filter f l ++ List.filter (λ x, negb (f x)) l ≡ₚ l.
Proof.
  induction l as [|x l IH]; [done|]. cbn [List.filter].
  destruct (f x); cbn [negb app].
  - by rewrite IH.
  - by rewrite <- Permutation_middle, IH.
Qed.

Lemma getCombinationIndices_Permutation n size :
  getCombinationIndices n size ≡ₚ subsets n 0 size.
Proof. rewrite getCombinationIndices_eq. apply filter_partition_Permutation. Qed.

Lemma length_indices_from_size n size :
  length (indices_from_size n size) = binom_sum n size.
Proof.
  induction size as [|size IH]; [done|]. cbn [indices_from_size binom_sum].
  by rewrite length_app, getCombinationIndices_Permutation, length_subsets, IH.
Qed.

Lemma elem_of_indices_from_size n size s :
  s ∈ indices_from_size n size ↔
  s `sublist_of` seq 0 n ∧ 1 ≤ length s ≤ size.
Proof.
  induction size as [|size IH]; cbn [indices_from_size].
  - rewrite elem_of_nil. split; [done|lia].
  - rewrite elem_of_app, getCombinationIndices_Permutation, elem_of_subsets, IH.
    split; [intros [[? ?]|[? ?]]; split; auto; lia|].
    intros [? ?]. destruct (decide (length s = S size)); [left|right]; split; auto; lia.
Qed.

Lemma NoDup_indices_from_size n size : NoDup (indices_from_size n size).
Proof.
  induction size as [|size IH]; cbn [indices_from_size]; [apply NoDup_nil_2|].
  apply NoDup_app. split_and!; [|intros s|done].
  - rewrite getCombinationIndices_Permutation. apply NoDup_subsets.
  - rewrite getCombinationIndices_Permutation, elem_of_subsets, elem_of_indices_from_size.
    lia.
Qed.

Lemma isContiguous_spec s : isContiguous s = true ↔ contiguous_run s.
Proof.
  unfold contiguous_run. induction s as [|a [|b s] IH].
  - split; [by exists 0|done].
  - split; [by exists a|done].
  - change (isContiguous (a :: b :: s)) with ((b =? a + 1) && isContiguous (b :: s)).
    rewrite andb_true_iff, Nat.eqb_eq, IH. split.
    + intros [-> [a' Ha']]. exists a. cbn [length seq] in *.
      injection Ha' as <- Hs. rewrite Nat.add_1_r in *. by rewrite <- Hs.
    + intros [a' Ha']. cbn [length seq] in Ha'. injection Ha' as <- -> Hs.
      split; [lia|]. exists (S a). cbn [length seq]. by rewrite <- Hs.
Qed.

Lemma combos_from_size_pick terms size :
  combos_from_size terms size = pick terms <$> indices_from_size (length terms) size.
Proof.
  induction size as [|size IH]; [done|]. cbn [combos_from_size indices_from_size].
  by rewrite fmap_app, IH.
Qed.

Lemma generateCombinations_pick terms :
  1 ≤ length terms →
  generateCombinations terms
  = pick terms <$> indices_from_size (length terms) (length terms).
Proof.
  intros Hn. unfold generateCombinations.
  destruct (Nat.leb_spec (length terms) 1) as [H1|H1].
  - destruct terms as [|t [|t' terms]]; cbn in *; try lia. done.
  - apply combos_from_size_pick.
Qed.

Lemma indices_from_size_groups n size :
  indices_from_size n size = mjoin (getCombinationIndices n <$> rev (seq 1 size)).
Proof.
  induction size as [|size IH]; [done|].
  rewrite seq_S, rev_app_distr. cbn [rev app fmap list_fmap mjoin list_join].
  cbn [indices_from_size]. by rewrite IH.
Qed.

Lemma getCombinationIndices_group n size :
  ∃ c nc, getCombinationIndices n size = c ++ nc
    ∧ Forall (λ s, length s = size ∧ contiguous_run s) c
    ∧ Forall (λ s, length s = size ∧ ¬ contiguous_run s) nc.
Proof.
  eexists _, _. split; [apply getCombinationIndices_eq|].
  split; apply Forall_forall; intros s [Hs Hc]%list_elem_of_In%filter_In;
    apply list_elem_of_In, elem_of_subsets in Hs as [_ Hs]; (split; [done|]).
  - by apply isContiguous_spec.
  - rewrite <- isContiguous_spec. by destruct (isContiguous s).
Qed.

(** C2, amended to non-empty term sequences: for a term sequence of length
    n >= 1, generateCombinations returns the terms at 2^n - 1 index lists
    without repetition, which are exactly the non-empty ascending index lists
    below n; they come in groups of equal size, the sizes running from n down
    to 1, and inside a group the contiguous runs come before the others.  For
    [A,B,C] the order is [A,B,C], [A,B], [B,C], [A,C], [A], [B], [C]. *)
Theorem generateCombinations_enumerates (terms : list string) :
  1 ≤ length terms →
  (∃ idxs : list (list nat),
      generateCombinations terms = pick terms <$> idxs
      ∧ length idxs = 2 ^ length terms - 1
      ∧ NoDup idxs
      ∧ (∀ s, s ∈ idxs ↔ s ≠ [] ∧ s `sublist_of` seq 0 (length terms))
      ∧ ∃ groups : nat → list (list nat),
          idxs = mjoin (groups <$> rev (seq 1 (length terms)))
          ∧ ∀ size, ∃ c nc, groups size = c ++ nc
              ∧ Forall (λ s, length s = size ∧ contiguous_run s) c
              ∧ Forall (λ s, length s = size ∧ ¬ contiguous_run s) nc)
  ∧ length (generateCombinations terms) = 2 ^ length terms - 1
  ∧ generateCombinations ["A"; "B"; "C"]
    = [["A"; "B"; "C"]; ["A"; "B"]; ["B"; "C"]; ["A"; "C"]; ["A"]; ["B"]; ["C"]].
Proof.
  intros Hn. set (n := length terms) in *.
  assert (length (indices_from_size n n) = 2 ^ n - 1) as Hlen.
  { rewrite length_indices_from_size. pose proof (binom_sum_full n). lia. }
  split_and!; [|by rewrite generateCombinations_pick, length_fmap|done].
  exists (indices_from_size n n). split_and!.
  - by apply generateCombinations_pick.
  - done.
  - apply NoDup_indices_from_size.
  - intros s. rewrite elem_of_indices_from_size. split.
    + intros [Hs Hl]. split; [|done]. intros ->. cbn in Hl. lia.
    + intros [Hne Hs]. split; [done|].
      pose proof (sublist_length _ _ Hs) as Hl. rewrite length_seq in Hl.
      destruct s; [done|]. cbn in *. lia.
  - exists (getCombinationIndices n). split; [apply indices_from_size_groups|].
    intros size. apply getCombinationIndices_group.
Qed.

Lemma generateCombinations_enumerates_witness :
  1 ≤ length ["A"; "B"] ∧ length (generateCombinations ["A"; "B"]) = 2 ^ 2 - 1.
Proof.
  split; [cbn; lia|].
  apply (generateCombinations_enumerates ["A"; "B"]). cbn. lia.
Defined.

(** C2 as stated fails on the empty sequence: the early return yields the one
    empty combination, where 2^0 - 1 = 0 are announced. *)
Lemma generateCombinations_nil_counterexample :
  ¬ (∀ terms : list string,
       length (generateCombinations terms) = 2 ^ length terms - 1).
Proof. intros H. specialize (H []). discriminate H. Qed.

(** ** Synonym expansion *)

Lemma foldl_push_unseen ws : ∀ acc seen,
  foldl push_unseen (acc, seen) ws
  = (acc ++ dedup_ci seen ws, list_to_set (toLowerCase <$> ws) ∪ seen).
Proof.
  induction ws as [|w ws IH]; intros acc seen; cbn [foldl dedup_ci fmap list_fmap].
  - rewrite app_nil_r. f_equal. set_solver.
  - unfold push_unseen at 2. cbn [fst snd].
    destruct (decide (toLowerCase w ∈ seen)) as [Hin|Hin]; rewrite IH.
    + f_equal. set_solver.
    + rewrite <- app_assoc. f_equal. set_solver.
Qed.

Lemma foldl_bind {A B C} (f : A → C → A) (g : B → list C) (l : list B) : ∀ a,
  foldl (λ a x, foldl f a (g x)) a l = foldl f a (l ≫= g).
Proof.
  induction l as [|x l IH]; intros a; [done|].
  rewrite bind_cons, foldl_app. apply IH.
Qed.

Lemma foldl_pointwise {A B} (f g : A → B → A) (l : list B) : ∀ a,
  (∀ a x, f a x = g a x) → foldl f a l = foldl g a l.
Proof.
  induction l as [|x l IH]; intros a Hfg; [done|]. cbn [foldl]. rewrite Hfg. by apply IH.
Qed.

Lemma expand_term_push st term :
  expand_term st term = foldl push_unseen st (replacement_words term).
Proof.
  unfold expand_term, replacement_words.
  destruct (SYNONYMS !! toLowerCase term) as [syns|]; [apply foldl_bind|done].
Qed.

(** The nested loops with their [seen] set keep the first occurrences of the
    stream of replacement words. *)
Lemma expandSynonyms_dedup_ci terms :
  expandSynonyms terms = dedup_ci ∅ (terms ≫= replacement_words).
Proof.
  unfold expandSynonyms.
  rewrite (foldl_pointwise _ (λ st term, foldl push_unseen st (replacement_words term)))
    by (intros; apply expand_term_push).
  rewrite foldl_bind, foldl_push_unseen. done.
Qed.









Lemma split_go_nonempty s : ∀ cur in_ws, split_go cur in_ws s ≠ [].
Proof.
  induction s as [|c s IH]; intros cur in_ws; cbn [split_go]; [done|].
  destruct (isSpace c); [destruct in_ws|]; auto.
Qed.



(** ** Relevance scorer *)

Lemma append_cons c a b : String c a +:+ b = String c (a +:+ b).
Proof. reflexivity. Qed.





Lemma isSpace_lower c : isSpace (lower_ascii c) = isSpace c.
Proof. by destruct c as [[] [] [] [] [] [] [] []]. Qed.
























(** ** Term selection *)

Lemma list_filter_sublist {A} (p : A → bool) (l : list A) : List.filter p l `sublist_of` l.
Proof.
  induction l as [|x l IH]; [done|]. cbn [List.filter].
  destruct (p x); [by apply sublist_skip|by apply sublist_cons].
Qed.

Lemma elem_of_list_filter {A} (p : A → bool) (l : list A) x :
  x ∈ List.filter p l ↔ x ∈ l ∧ p x = true.
Proof. by rewrite !list_elem_of_In, filter_In. Qed.

Lemma is_meaningful_spec t :
  is_meaningful t = true ↔ (toLowerCase t ∉ FILLER_WORDS) ∧ 1 < String.length t.
Proof.
  unfold is_meaningful.
  rewrite andb_true_iff, negb_true_iff, bool_decide_eq_false, Nat.ltb_lt. done.
Qed.

(** C4, amended: the terms removed before the combinations are generated are
    the filler words and the terms of a single character, and they are
    removed exactly when at least two other terms remain; otherwise the
    unfiltered sequence is used.  So the sequence used either keeps at
    least two terms or is the whole term list. *)
Theorem termsToUse_filtering (terms : list string) :
  (∀ t, t ∈ meaningful terms ↔
        t ∈ terms ∧ (toLowerCase t ∉ FILLER_WORDS) ∧ 1 < String.length t)
  ∧ meaningful terms `sublist_of` terms
  ∧ (2 ≤ length (meaningful terms) → termsToUse terms = meaningful terms)
  ∧ (length (meaningful terms) < 2 → termsToUse terms = terms)
  ∧ (2 ≤ length (termsToUse terms) ∨ termsToUse terms = terms).
Proof.
  unfold termsToUse. split_and!.
  - intros t. unfold meaningful. by rewrite elem_of_list_filter, is_meaningful_spec.
  - apply list_filter_sublist.
  - intros H. by rewrite (proj2 (Nat.leb_le _ _) H).
  - intros H. by rewrite (proj2 (Nat.leb_gt _ _) H).
  - destruct (Nat.leb_spec 2 (length (meaningful terms))); auto.
Qed.

Lemma termsToUse_filtering_witness :
  2 ≤ length (meaningful ["the"; "insulin"; "pump"])
  ∧ termsToUse ["the"; "insulin"; "pump"] = ["insulin"; "pump"].
Proof.
  split; [vm_compute; lia|].
  transitivity (meaningful ["the"; "insulin"; "pump"]); [|vm_compute; reflexivity].
  apply (termsToUse_filtering ["the"; "insulin"; "pump"]). vm_compute. lia.
Defined.

(** C4 as stated fails: with no filler word among three terms, the term "d"
    is dropped all the same, because single characters are filtered too; and
    with the two non-filler terms "x" and "y" the filler "the" is kept. *)
Lemma termsToUse_counterexample :
  ¬ (∀ terms,
       termsToUse terms
       = if 2 <=? length (nonfiller terms) then nonfiller terms else terms)
  ∧ nonfiller ["vitamin"; "d"; "test"] = ["vitamin"; "d"; "test"]
  ∧ termsToUse ["vitamin"; "d"; "test"] = ["vitamin"; "test"]
  ∧ nonfiller ["x"; "y"; "the"] = ["x"; "y"]
  ∧ termsToUse ["x"; "y"; "the"] = ["x"; "y"; "the"].
Proof.
  split_and!; [|vm_compute; reflexivity..].
  intros H. specialize (H ["vitamin"; "d"; "test"]). vm_compute in H. discriminate H.
Qed.

(** ** The order of the sizes in the broadening loop *)

Lemma filter_seq_interval a b : ∀ m s,
  List.filter (λ k, (a <=? k) && (k <? b)) (seq s m)
  = seq (Nat.max a s) (Nat.min b (s + m) - Nat.max a s).
Proof.
  induction m as [|m IH]; intros s.
  - cbn [seq List.filter]. by replace (Nat.min b (s + 0) - Nat.max a s) with 0 by lia.
  - rewrite seq_S, List.filter_app, IH. cbn [List.filter].
    destruct (Nat.leb_spec a (s + m)), (Nat.ltb_spec (s + m) b); cbn [andb].
    + replace (Nat.min b (s + S m) - Nat.max a s)
        with (S (Nat.min b (s + m) - Nat.max a s)) by lia.
      rewrite seq_S. do 2 f_equal. lia.
    + rewrite app_nil_r. f_equal. lia.
    + rewrite app_nil_r.
      replace (Nat.min b (s + m) - Nat.max a s) with 0 by lia.
      by replace (Nat.min b (s + S m) - Nat.max a s) with 0 by lia.
    + rewrite app_nil_r. f_equal. lia.
Qed.

Lemma filter_sizes (q : nat → bool) a b n :
  (∀ k, q k = (a <=? k) && (k <? b)) →
  List.filter q (rev (seq 1 n)) = rev (seq (Nat.max a 1) (Nat.min b (1 + n) - Nat.max a 1)).
Proof.
  intros Hq. rewrite filter_rev. f_equal.
  rewrite (filter_ext _ _ Hq). apply filter_seq_interval.
Qed.

Lemma length_pick terms idx : length (pick terms idx) = length idx.
Proof. apply length_fmap. Qed.

Lemma filter_pick (q : nat → bool) terms idxs :
  List.filter (λ c, q (length c)) (pick terms <$> idxs)
  = pick terms <$> List.filter (λ idx, q (length idx)) idxs.
Proof.
  induction idxs as [|idx idxs IH]; [done|]. cbn [fmap list_fmap List.filter].
  rewrite length_pick. change (list_fmap _ _ (pick terms) idxs) with (pick terms <$> idxs).
  rewrite IH. by destruct (q (length idx)).
Qed.

Lemma getCombinationIndices_length n size :
  Forall (λ idx, length idx = size) (getCombinationIndices n size).
Proof.
  apply Forall_forall. intros idx. rewrite getCombinationIndices_Permutation, elem_of_subsets.
  by intros [_ ?].
Qed.

Lemma filter_uniform {A} (q : nat → bool) k (l : list (list A)) :
  Forall (λ x, length x = k) l →
  List.filter (λ x, q (length x)) l = if q k then l else [].
Proof.
  induction 1 as [|x l Hx _ IH]; cbn [List.filter]; [by destruct (q k)|].
  rewrite Hx, IH. by destruct (q k).
Qed.

Lemma mjoin_cons {A} (x : list A) (l : list (list A)) : mjoin (x :: l) = x ++ mjoin l.
Proof. reflexivity. Qed.

Lemma filter_groups (q : nat → bool) n sizes :
  List.filter (λ idx, q (length idx)) (mjoin (getCombinationIndices n <$> sizes))
  = mjoin (getCombinationIndices n <$> List.filter q sizes).
Proof.
  induction sizes as [|k sizes IH]; [done|].
  rewrite fmap_cons, mjoin_cons, List.filter_app, IH.
  rewrite (filter_uniform q k) by apply getCombinationIndices_length.
  cbn [List.filter]. destruct (q k); [|done]. by rewrite fmap_cons, mjoin_cons.
Qed.

(** With at least two terms the loop takes the combinations size by size in
    the order [size_order], each size in the order of the generator. *)
Lemma combos_size_order tu :
  2 ≤ length tu →
  combos tu
  = pick tu <$> mjoin (getCombinationIndices (length tu) <$> size_order (length tu)).
Proof.
  intros Hn. unfold combos, size_order. set (n := length tu) in *.
  rewrite generateCombinations_pick, indices_from_size_groups by lia. fold n.
  rewrite (filter_pick (λ k, k =? n)).
  rewrite (filter_pick (λ k, (2 <=? k) && (k <=? 3) && (k <? n))).
  rewrite (filter_pick (λ k, (3 <? k) && (k <? n))).
  rewrite (filter_pick (λ k, k =? 1)).
  rewrite (filter_groups (λ k, k =? n)),
    (filter_groups (λ k, (2 <=? k) && (k <=? 3) && (k <? n))),
    (filter_groups (λ k, (3 <? k) && (k <? n))), (filter_groups (λ k, k =? 1)).
  rewrite (filter_sizes (λ k, k =? n) n (S n)), (filter_sizes _ 2 (Nat.min 4 n)),
    (filter_sizes _ 4 n), (filter_sizes (λ k, k =? 1) 1 2).
  - rewrite !fmap_app, !join_app, !fmap_app.
    replace (Nat.max n 1) with n by lia.
    replace (Nat.min (S n) (1 + n) - n) with 1 by lia.
    replace (Nat.min (Nat.min 4 n) (1 + n) - Nat.max 2 1) with (Nat.min 4 n - 2) by lia.
    replace (Nat.min n (1 + n) - Nat.max 4 1) with (n - 4) by lia.
    replace (Nat.min 2 (1 + n) - Nat.max 1 1) with 1 by lia.
    done.
  - intros k. destruct (Nat.eqb_spec k 1), (Nat.leb_spec 1 k), (Nat.ltb_spec k 2);
      cbn [andb]; lia.
  - intros k. destruct (Nat.ltb_spec 3 k), (Nat.leb_spec 4 k); cbn [andb]; try lia; done.
  - intros k.
    destruct (Nat.leb_spec 2 k), (Nat.leb_spec k 3), (Nat.ltb_spec k n),
      (Nat.ltb_spec k (Nat.min 4 n)); cbn [andb]; lia.
  - intros k. destruct (Nat.eqb_spec k n), (Nat.leb_spec n k), (Nat.ltb_spec k (S n));
      cbn [andb]; lia.
Qed.

Lemma size_order_small n : 2 ≤ n ≤ 4 → size_order n = rev (seq 1 n).
Proof.
  intros Hn. assert (n = 2 ∨ n = 3 ∨ n = 4) as [->|[->| ->]] by lia; reflexivity.
Qed.

(** Up to four terms the order is the one of the generator. *)
Lemma combos_small tu : 2 ≤ length tu ≤ 4 → combos tu = generateCombinations tu.
Proof.
  intros Hn. rewrite combos_size_order, size_order_small by lia.
  by rewrite generateCombinations_pick, indices_from_size_groups by lia.
Qed.

Lemma filter_partition4 {A} (p1 p2 p3 p4 : A → bool) (l : list A) :
  (∀ x, x ∈ l →
     (if p1 x then 1 else 0) + (if p2 x then 1 else 0)
     + (if p3 x then 1 else 0) + (if p4 x then 1 else 0) = 1) →
  List.filter p1 l ++ List.filter p2 l ++ List.filter p3 l ++ List.filter p4 l ≡ₚ l.
Proof.
  induction l as [|x l IH]; intros H; [done|].
  specialize (IH ltac:(intros y ?; apply H; by right)).
  pose proof (H x ltac:(left)) as Hx. cbn [List.filter].
  destruct (p1 x), (p2 x), (p3 x), (p4 x); try lia; cbn [app].
  - by rewrite IH.
  - by rewrite <- Permutation_middle, IH.
  - by rewrite (app_assoc (List.filter p1 l)), <- Permutation_middle, <- app_assoc, IH.
  - rewrite (app_assoc (List.filter p2 l)), (app_assoc (List.filter p1 l)).
    by rewrite <- Permutation_middle, <- !app_assoc, IH.
Qed.

Lemma generateCombinations_lengths terms c :
  1 ≤ length terms → c ∈ generateCombinations terms → 1 ≤ length c ≤ length terms.
Proof.
  intros Hn. rewrite generateCombinations_pick by done.
  intros (idx & -> & Hidx)%list_elem_of_fmap. rewrite length_pick.
  by apply elem_of_indices_from_size in Hidx as [_ ?].
Qed.

(** With at least two terms no combination is lost or taken twice. *)
Lemma combos_Permutation tu : 2 ≤ length tu → combos tu ≡ₚ generateCombinations tu.
Proof.
  intros Hn. unfold combos. apply filter_partition4. intros c Hc.
  apply generateCombinations_lengths in Hc; [|lia].
  destruct (Nat.eqb_spec (length c) (length tu)), (Nat.leb_spec 2 (length c)),
    (Nat.leb_spec (length c) 3), (Nat.ltb_spec (length c) (length tu)),
    (Nat.ltb_spec 3 (length c)), (Nat.eqb_spec (length c) 1); cbn [andb]; lia.
Qed.

(** ** The broadening loop *)

Section LoopFacts.
Context {World : Type}.
Variable queryOpenFDA : World → Request → OpenFDAResponse * World.
Variable device_class : option string.
Variable resultLimit : nat.
Variable originalTerms : list string.

Local Abbreviation try_field := (try_field queryOpenFDA device_class resultLimit originalTerms).
Local Abbreviation fields_loop := (fields_loop queryOpenFDA device_class resultLimit originalTerms).
Local Abbreviation combos_loop := (combos_loop queryOpenFDA device_class resultLimit originalTerms).
Local Abbreviation termSets_loop :=
  (termSets_loop queryOpenFDA device_class resultLimit originalTerms).
Local Abbreviation attempt := (attempt device_class resultLimit).
Local Abbreviation attempts := (attempts device_class resultLimit).

Lemma call_spec (o : IO World) req :
  call queryOpenFDA o req
  = ((queryOpenFDA (world o) req).1,
     {| world := (queryOpenFDA (world o) req).2;
        calls := calls o ++ [(req, (queryOpenFDA (world o) req).1)] |}).
Proof. unfold call. by destruct (queryOpenFDA (world o) req). Qed.

(** *** Invariants of the three nested loops *)

Section Invariant.
Variable I : Search World → Prop.
Variable R : ToolResult → IO World → Prop.
(** The attempts the invariant has to be kept for. *)
Variable P : list string → list string → string → Prop.
Hypothesis step : ∀ tu combo field s,
  P tu combo field → I s → apiCalls s < MAX_API_CALLS →
  flow_post I R (try_field tu combo field s).

Lemma fields_loop_invariant tu combo fields : ∀ s,
  (∀ field, field ∈ fields → P tu combo field) → I s →
  flow_post I R (fields_loop tu combo fields s).
Proof.
  induction fields as [|field fields IH]; intros s HP Hs; cbn [fields_loop]; [done|].
  destruct (Nat.leb_spec MAX_API_CALLS (apiCalls s)) as [|Hlt]; [done|].
  pose proof (step tu combo field s (HP _ ltac:(left)) Hs Hlt) as Hstep.
  destruct (try_field tu combo field s) as [r o|s']; [done|].
  apply IH; [|done]. intros f ?. apply HP. by right.
Qed.

Lemma combos_loop_invariant tu cs : ∀ s,
  (∀ combo field, combo ∈ cs → field ∈ FIELDS → P tu combo field) → I s →
  flow_post I R (combos_loop tu cs s).
Proof.
  induction cs as [|combo cs IH]; intros s HP Hs; cbn [combos_loop]; [done|].
  destruct (Nat.leb_spec MAX_API_CALLS (apiCalls s)) as [|Hlt]; [done|].
  pose proof (fields_loop_invariant tu combo FIELDS s) as Hf.
  destruct (fields_loop tu combo FIELDS s) as [r o|s'].
  - apply Hf; [|done]. intros f ?. apply HP; [left|done].
  - apply IH.
    + intros c f ? ?. apply HP; [by right|done].
    + apply Hf; [|done]. intros f ?. apply HP; [left|done].
Qed.

Lemma termSets_loop_invariant tsets : ∀ s,
  (∀ terms combo field,
     terms ∈ tsets → combo ∈ combos (termsToUse terms) → field ∈ FIELDS →
     P (termsToUse terms) combo field) →
  I s → flow_post I R (termSets_loop tsets s).
Proof.
  induction tsets as [|terms tsets IH]; intros s HP Hs; cbn [termSets_loop]; [done|].
  pose proof (combos_loop_invariant (termsToUse terms) (combos (termsToUse terms)) s) as Hc.
  destruct (combos_loop _ _ s) as [r o|s'].
  - apply Hc; [|done]. intros c f ? ?. apply HP; [left|done..].
  - apply IH.
    + intros t c f ? ? ?. apply HP; [by right|done..].
    + apply Hc; [|done]. intros c f ? ?. apply HP; [left|done..].
Qed.
End Invariant.

(** *** The call budget *)

Lemma try_field_calls tu combo field s :
  calls (flow_io (try_field tu combo field s))
  = calls (io s) ++ [(attempt field combo, (queryOpenFDA (world (io s)) (attempt field combo)).1)]
  ∧ match try_field tu combo field s with
    | Running s' => apiCalls s' = S (apiCalls s)
    | Returned _ _ => True
    end.
Proof.
  unfold try_field. rewrite call_spec.
  destruct (usable_results _) as [rs|]; [|done].
  destruct (_ || _); [done|].
  by destruct (match bestWeak _ with Some _ => _ | None => _ end).
Qed.

(** *** The order of the queries *)

Lemma fields_loop_exhausted tu combo fields s :
  MAX_API_CALLS ≤ apiCalls s → fields_loop tu combo fields s = Running s.
Proof.
  intros H. destruct fields; cbn [fields_loop]; [done|].
  by rewrite (proj2 (Nat.leb_le _ _) H).
Qed.

Lemma combos_loop_exhausted tu cs s :
  MAX_API_CALLS ≤ apiCalls s → combos_loop tu cs s = Running s.
Proof.
  intros H. destruct cs; cbn [combos_loop]; [done|].
  by rewrite (proj2 (Nat.leb_le _ _) H).
Qed.

Lemma termSets_loop_exhausted tsets s :
  MAX_API_CALLS ≤ apiCalls s → termSets_loop tsets s = Running s.
Proof.
  intros H. induction tsets as [|terms tsets IH]; cbn [termSets_loop]; [done|].
  by rewrite combos_loop_exhausted.
Qed.

Lemma try_field_requests tu combo field s :
  requests (flow_io (try_field tu combo field s)) = requests (io s) ++ [attempt field combo].
Proof.
  unfold requests. rewrite (proj1 (try_field_calls tu combo field s)).
  by rewrite fmap_app.
Qed.

Lemma issues_nothing l (s : Search World) :
  l = [] ∨ MAX_API_CALLS ≤ apiCalls s → issues l s (Running s).
Proof.
  intros H. exists 0. cbn [flow_io]. rewrite take_0, app_nil_r.
  split_and!; [lia|done|lia|]. destruct H as [->|?]; auto.
Qed.

(** Sequencing: a loop over [l1] followed, unless it returned, by a loop over
    [l2] that does nothing once the budget is spent. *)
Lemma issues_seq l1 l2 (s : Search World) f1
    (next : Search World → Flow World (Search World)) :
  issues l1 s f1 →
  (∀ s1, issues l2 s1 (next s1)) →
  (∀ s1, MAX_API_CALLS ≤ apiCalls s1 → next s1 = Running s1) →
  issues (l1 ++ l2) s
    (match f1 with Returned r o => Returned r o | Running s1 => next s1 end).
Proof.
  intros (k1 & Hk1 & Hreq1 & Hf1) Hnext Hstop.
  destruct f1 as [r o|s1].
  - exists k1. rewrite length_app, take_app_le by done. split_and!; [lia|done..].
  - destruct Hf1 as [Ha1 [->|Hmax]].
    + destruct (Hnext s1) as (k2 & Hk2 & Hreq2 & Hf2).
      exists (length l1 + k2). rewrite length_app, take_app_add.
      cbn [flow_io] in Hreq1. rewrite take_ge in Hreq1 by done.
      split_and!; [lia|by rewrite Hreq2, Hreq1, <- app_assoc|].
      destruct (next s1) as [|s2]; [done|]. destruct Hf2 as [-> Hend]. split; lia.
    + rewrite Hstop by done. exists k1.
      rewrite length_app, take_app_le by done. split_and!; [lia|done|done|by right].
Qed.

Lemma fields_loop_issues tu combo fields : ∀ s,
  issues ((λ field, attempt field combo) <$> fields) s (fields_loop tu combo fields s).
Proof.
  induction fields as [|field fields IH]; intros s; cbn [fields_loop].
  { apply issues_nothing. by left. }
  destruct (Nat.leb_spec MAX_API_CALLS (apiCalls s)) as [Hmax|Hlt].
  { apply issues_nothing. by right. }
  apply (issues_seq [attempt field combo] _ s (try_field tu combo field s)
           (fields_loop tu combo fields)); [|apply IH|apply fields_loop_exhausted].
  exists 1. rewrite try_field_requests. split_and!; [done..|].
  destruct (try_field_calls tu combo field s) as [_ Ha].
  destruct (try_field tu combo field s); [done|]. split; [lia|by left].
Qed.

Lemma combos_loop_issues tu cs : ∀ s,
  issues (cs ≫= attempts) s (combos_loop tu cs s).
Proof.
  induction cs as [|combo cs IH]; intros s; cbn [combos_loop].
  { apply issues_nothing. by left. }
  destruct (Nat.leb_spec MAX_API_CALLS (apiCalls s)) as [Hmax|Hlt].
  { apply issues_nothing. by right. }
  rewrite bind_cons.
  apply (issues_seq (attempts combo) _ s (fields_loop tu combo FIELDS s)
           (combos_loop tu cs)); [|apply IH|apply combos_loop_exhausted].
  apply (fields_loop_issues tu combo FIELDS).
Qed.

Lemma termSets_loop_issues tsets : ∀ s,
  issues (all_attempts device_class resultLimit tsets) s (termSets_loop tsets s).
Proof.
  unfold all_attempts.
  induction tsets as [|terms tsets IH]; intros s; cbn [termSets_loop].
  { apply issues_nothing. by left. }
  rewrite bind_cons.
  apply (issues_seq _ _ s (combos_loop (termsToUse terms) (combos (termsToUse terms)) s)
           (termSets_loop tsets)); [|apply IH|apply termSets_loop_exhausted].
  apply combos_loop_issues.
Qed.
End LoopFacts.

(** C3, amended: for every term-set the queries are issued by going through
    the combinations in the order of the array [combos], one query on
    device_name and then one on definition for each, stopping early only by a
    return or with the budget spent.  With at least two terms, [combos] holds
    every generated combination once, the full-length one first, then the
    sizes 3 and 2, then the sizes n-1 down to 4, then the single terms, each
    size in the order of the generator; up to four terms this is the order
    of the generator itself. *)
Theorem broadening_order {World : Type}
    (queryOpenFDA : World → Request → OpenFDAResponse * World)
    (device_class : option string) (resultLimit : nat)
    (originalTerms : list string) (tsets : list (list string))
    (s : Search World) (tu : list string) :
  issues (tsets ≫= (λ terms, combos (termsToUse terms) ≫= (λ combo,
            [attempt device_class resultLimit "device_name" combo;
             attempt device_class resultLimit "definition" combo])))
    s (termSets_loop queryOpenFDA device_class resultLimit originalTerms tsets s)
  ∧ (2 ≤ length tu →
       combos tu
       = pick tu <$> mjoin (getCombinationIndices (length tu) <$> size_order (length tu))
       ∧ combos tu ≡ₚ generateCombinations tu)
  ∧ (2 ≤ length tu ≤ 4 → combos tu = generateCombinations tu).
Proof.
  split_and!.
  - apply termSets_loop_issues.
  - intros Hn. split; [by apply combos_size_order|by apply combos_Permutation].
  - apply combos_small.
Qed.

Lemma broadening_order_witness :
  let tu := ["aa"; "bb"; "cc"; "dd"; "ee"] in
  2 ≤ length tu
  ∧ combos tu
    = pick tu <$> mjoin (getCombinationIndices (length tu) <$> size_order (length tu)).
Proof.
  intros tu. split; [cbn; lia|].
  apply (broadening_order rate_limited None 10 tu [tu] (fresh tt) tu). cbn. lia.
Defined.

(** C3 as stated fails with five terms: the third query is already on the
    three-term combination [aa, bb, cc], where the generator's second
    combination is [aa, bb, cc, dd]. *)
Lemma broadening_order_counterexample :
  let terms := ["aa"; "bb"; "cc"; "dd"; "ee"] in
  let f := termSets_loop rate_limited None 10 terms [terms] (fresh tt) in
  ¬ (requests (flow_io f)
       `prefix_of` (generateCombinations (termsToUse terms) ≫= attempts None 10))
  ∧ requests (flow_io f) !! 2 = Some (attempt None 10 "device_name" ["aa"; "bb"; "cc"])
  ∧ generateCombinations (termsToUse terms) !! 1 = Some ["aa"; "bb"; "cc"; "dd"].
Proof.
  intros terms f.
  assert (requests (flow_io f) !! 2
          = Some (attempt None 10 "device_name" ["aa"; "bb"; "cc"])) as H2
    by (vm_compute; reflexivity).
  split_and!; [|done|vm_compute; reflexivity].
  intros Hp. pose proof (prefix_lookup_Some _ _ _ _ H2 Hp) as H. vm_compute in H.
  discriminate H.
Qed.

(** ** Strong and weak matches *)

Section WeakFacts.
Context {World : Type}.
Variable queryOpenFDA : World → Request → OpenFDAResponse * World.
Variable device_class : option string.
Variable resultLimit : nat.
Variable originalTerms : list string.

Lemma scored_functional e q1 q2 :
  scored originalTerms e q1 → scored originalTerms e q2 → q1 = q2.
Proof. intros (rs1 & H1 & ->) (rs2 & H2 & ->). congruence. Qed.

Lemma Qle_bool_false x y : Qle_bool x y = false ↔ (y < x)%Q.
Proof.
  rewrite <- not_true_iff_false, Qle_bool_iff. split; [apply Qnot_le_lt|apply Qlt_not_le].
Qed.

(** One attempt keeps the invariant, or returns a strong match. *)
Lemma try_field_weak_invariant tsets tu combo field s :
  (∃ terms, terms ∈ tsets ∧ tu = termsToUse terms ∧ combo ∈ combos tu ∧ field ∈ FIELDS) →
  weak_invariant originalTerms s →
  flow_post (weak_invariant originalTerms)
    (strong_return device_class resultLimit originalTerms tsets)
    (try_field queryOpenFDA device_class resultLimit originalTerms tu combo field s).
Proof.
  intros (terms & Hterms & -> & Hcombo & Hfield) [Hlow Hbest].
  unfold try_field. rewrite call_spec.
  set (url := attempt device_class resultLimit field combo).
  set (data := (queryOpenFDA (world (io s)) url).1).
  destruct (usable_results data) as [rs|] eqn:Hrs.
  - set (score := scoreResults rs originalTerms).
    assert (scored originalTerms (url, data) score) as Hscored by (by exists rs).
    destruct (length (termsToUse terms) <=? length combo) eqn:Hfull; cbn [orb].
    { exists url, data, rs, terms, combo, field, (calls (io s)).
      split_and!; try done. left. by apply Nat.leb_le. }
    destruct (Qle_bool RELEVANCE_THRESHOLD score) eqn:Hthr.
    { exists url, data, rs, terms, combo, field, (calls (io s)).
      split_and!; try done. right. by apply Qle_bool_iff. }
    apply Qle_bool_false in Hthr.
    assert (∀ e q, e ∈ calls (io s) ++ [(url, data)] →
                   scored originalTerms e q → (q < RELEVANCE_THRESHOLD)%Q) as Hlow'.
    { intros e q [He| ->%list_elem_of_singleton]%elem_of_app Hq; [by eapply Hlow|].
      by rewrite (scored_functional _ _ _ Hq Hscored). }
    cbn [flow_post bestWeak]. destruct (bestWeak s) as [b|] eqn:Hb.
    + destruct Hbest as (l1 & l2 & Hlog & Hb_scored & Hl1 & Hl2).
      destruct (Qle_bool score (weak_score b)) eqn:Hcmp; cbn [negb].
      * apply Qle_bool_iff in Hcmp. split; [done|]. cbn [bestWeak io calls].
        exists l1, (l2 ++ [(url, data)]). rewrite Hlog, <- app_assoc. split_and!; try done.
        intros e q [He| ->%list_elem_of_singleton]%elem_of_app Hq; [by eapply Hl2|].
        by rewrite (scored_functional _ _ _ Hq Hscored).
      * apply Qle_bool_false in Hcmp. split; [done|]. cbn [bestWeak io calls weak_url
          weak_data weak_score].
        exists (calls (io s)), []. split_and!; try done; [|by intros ? ? ?%elem_of_nil].
        intros e q He Hq. rewrite Hlog in He.
        apply elem_of_app in He as [He|[->|He]%elem_of_cons].
        -- eapply Qlt_trans; [by eapply Hl1|done].
        -- by rewrite (scored_functional _ _ _ Hq Hb_scored).
        -- eapply Qle_lt_trans; [by eapply Hl2|done].
    + split; [done|]. cbn [bestWeak io calls weak_url weak_data weak_score].
      exists (calls (io s)), []. split_and!; try done; [|by intros ? ? ?%elem_of_nil].
      intros e q He (rs' & Hrs' & _). by rewrite (Hbest e He) in Hrs'.
  - cbn [flow_post]. split; cbn [bestWeak io calls].
    + intros e q [He| ->%list_elem_of_singleton]%elem_of_app Hq; [by eapply Hlow|].
      destruct Hq as (rs & Hq & _). cbn [snd] in Hq. congruence.
    + destruct (bestWeak s) as [b|].
      * destruct Hbest as (l1 & l2 & Hlog & Hb_scored & Hl1 & Hl2).
        exists l1, (l2 ++ [(url, data)]). rewrite Hlog, <- app_assoc. split_and!; try done.
        intros e q [He| ->%list_elem_of_singleton]%elem_of_app Hq; [by eapply Hl2|].
        destruct Hq as (rs & Hq & _). cbn [snd] in Hq. congruence.
      * intros e [He| ->%list_elem_of_singleton]%elem_of_app; [by apply Hbest|done].
Qed.

Lemma termSets_loop_weak_invariant tsets s :
  weak_invariant originalTerms s →
  flow_post (weak_invariant originalTerms)
    (strong_return device_class resultLimit originalTerms tsets)
    (termSets_loop queryOpenFDA device_class resultLimit originalTerms tsets s).
Proof.
  intros Hs.
  apply (termSets_loop_invariant queryOpenFDA device_class resultLimit originalTerms
           (weak_invariant originalTerms)
           (strong_return device_class resultLimit originalTerms tsets)
           (λ tu combo field, ∃ terms,
              terms ∈ tsets ∧ tu = termsToUse terms ∧ combo ∈ combos tu ∧ field ∈ FIELDS));
    [|by eauto|done].
  intros tu combo field s' HP Hs' _. by apply try_field_weak_invariant.
Qed.
End WeakFacts.


(** ** The bridge *)

Lemma dedup_keys_app cs1 : ∀ seen cs2,
  dedup_keys seen (cs1 ++ cs2)
  = dedup_keys seen cs1 ++ dedup_keys (list_to_set (join "+" <$> cs1) ∪ seen) cs2.
Proof.
  induction cs1 as [|combo cs1 IH]; intros seen cs2; cbn [app dedup_keys].
  - f_equal. set_solver.
  - destruct (decide (join "+" combo ∈ seen)); rewrite IH.
    + do 2 f_equal. set_solver.
    + cbn [app]. do 3 f_equal. set_solver.
Qed.

Section BridgeFacts.
Context {World : Type}.
Variable queryOpenFDA : World → Request → OpenFDAResponse * World.
Variable device_class : option string.
Variable originalTerms : list string.

Local Abbreviation lookup_codes := (lookup_codes queryOpenFDA device_class).
Local Abbreviation bridge_combos := (bridge_combos queryOpenFDA device_class).
Local Abbreviation bridge_termSets := (bridge_termSets queryOpenFDA device_class).






(** *** The bridge when every call fails *)

Hypothesis failing : ∀ w req, error (queryOpenFDA w req).1 ≠ None.




End BridgeFacts.

(** ** The loop when every call fails *)

Section FailingFacts.
Context {World : Type}.
Variable queryOpenFDA : World → Request → OpenFDAResponse * World.
Variable device_class : option string.
Variable resultLimit : nat.
Variable originalTerms : list string.
Hypothesis failing : ∀ w req, error (queryOpenFDA w req).1 ≠ None.

End FailingFacts.




(** ** The call budget *)



(** ** Candidate queries and lookups of the bridge *)

(** C8, at the query "aa+bb aa bb" with a service that finds nothing: the
    single term [aa+bb] and the pair [aa, bb] are both candidates of the
    bridge, but they have the same key "aa+bb" in [seen510k]; the pair is
    queried and the single term, a different combination with a different
    query, is skipped although the bridge runs to its end. *)
Theorem bridge_key_collision :
  let terms := ["aa+bb"; "aa"; "bb"] in
  let run := classify_device rate_limited None (Some "aa+bb aa bb") None None tt in
  split_ws (trim "aa+bb aa bb") = terms
  ∧ ["aa"; "bb"] ∈ topCombos terms
  ∧ ["aa+bb"] ∈ topCombos terms
  ∧ join "+" ["aa"; "bb"] = join "+" ["aa+bb"]
  ∧ bridge_request ["aa"; "bb"] ≠ bridge_request ["aa+bb"]
  ∧ bridge_request ["aa"; "bb"] ∈ requests run.2
  ∧ (bridge_request ["aa+bb"] ∉ requests run.2)
  ∧ run.1 = NoResultsFound "aa+bb aa bb" false.
Proof.
  intros terms run. split_and!; try (vm_compute; reflexivity).
  - apply list_elem_of_In. vm_compute. tauto.
  - apply list_elem_of_In. vm_compute. tauto.
  - vm_compute. discriminate.
  - apply list_elem_of_In. vm_compute. tauto.
  - rewrite list_elem_of_In. vm_compute. intuition discriminate.
Qed.

Lemma codes_get_None m pc : codes_get m pc = None ↔ pc ∉ m.*1.
Proof.
  induction m as [|[k v] m IH]; cbn [codes_get fmap list_fmap fst].
  - split; [by intros _ ?%elem_of_nil|done].
  - rewrite not_elem_of_cons. destruct (String.eqb_spec k pc) as [->|Hne].
    + split; [done|]. by intros [? _].
    + rewrite IH. split; [by intros ?; split|by intros [_ ?]].
Qed.

Lemma codes_update_keys m pc f : (codes_update m pc f).*1 = m.*1.
Proof.
  induction m as [|[k v] m IH]; [done|]. cbn [codes_update].
  destruct (String.eqb k pc); cbn [fmap list_fmap fst]; [done|].
  f_equal. apply IH.
Qed.

Lemma add_code_keys m r :
  (add_code m r).*1
  = match record_code r with
    | Some pc => if decide (pc ∈ m.*1) then m.*1 else m.*1 ++ [pc]
    | None => m.*1
    end.
Proof.
  unfold add_code, record_code.
  destruct (toUpperCase <$> r !! "product_code") as [pc|]; [|done].
  destruct (PRODUCT_CODE_RE pc) eqn:Hre.
  - assert (truthy (Some pc) = true) as -> by (by destruct pc).
    cbn [negb orb]. destruct (codes_get m pc) eqn:Hget.
    + rewrite codes_update_keys. rewrite decide_True; [done|].
      destruct (decide (pc ∈ m.*1)) as [|Hnin]; [done|].
      apply codes_get_None in Hnin. congruence.
    + apply codes_get_None in Hget. rewrite decide_False by done.
      by rewrite fmap_app.
  - by rewrite orb_true_r.
Qed.

(** The keys of [productCodes]: the valid codes of the records, each once,
    in the order of their first record. *)
Lemma collect_codes_keys rs :
  NoDup (collect_codes rs).*1
  ∧ ∀ pc, pc ∈ (collect_codes rs).*1 ↔ ∃ r, r ∈ rs ∧ record_code r = Some pc.
Proof.
  unfold collect_codes.
  assert (∀ m, NoDup m.*1 →
    NoDup (foldl add_code m rs).*1
    ∧ ∀ pc, pc ∈ (foldl add_code m rs).*1 ↔
            pc ∈ m.*1 ∨ ∃ r, r ∈ rs ∧ record_code r = Some pc) as H.
  { induction rs as [|r rs IH]; intros m Hm; cbn [foldl].
    - split; [done|]. intros pc. split; [by left|].
      by intros [?|(r & ?%elem_of_nil & _)].
    - assert (NoDup (add_code m r).*1) as Hm'.
      { rewrite add_code_keys. destruct (record_code r) as [pc|]; [|done].
        destruct (decide (pc ∈ m.*1)); [done|].
        apply NoDup_app. split_and!; [done| |apply NoDup_singleton].
        by intros x Hx ->%list_elem_of_singleton. }
      destruct (IH _ Hm') as [Hnd Hin]. split; [done|]. intros pc.
      rewrite Hin, add_code_keys. split.
      + intros [Hpc|(r' & Hr' & Hc)]; [|right; exists r'; split; [by right|done]].
        destruct (record_code r) as [pc'|] eqn:Hr; [|by left].
        destruct (decide (pc' ∈ m.*1)); [by left|].
        apply elem_of_app in Hpc as [?| ->%list_elem_of_singleton]; [by left|].
        right. exists r. split; [left|done].
      + intros [Hpc|(r' & [->|Hr']%elem_of_cons & Hc)].
        * left. destruct (record_code r) as [pc'|]; [|done].
          destruct (decide (pc' ∈ m.*1)); [done|]. apply elem_of_app. by left.
        * left. rewrite Hc. destruct (decide (pc ∈ m.*1)); [done|].
          apply elem_of_app. right. left.
        * right. by exists r'. }
  destruct (H [] ltac:(apply NoDup_nil_2)) as [Hnd Hin]. split; [done|].
  intros pc. rewrite Hin. split; [|by right]. by intros [?%elem_of_nil|?].
Qed.

Section BridgeTrace.
Context {World : Type}.
Variable queryOpenFDA : World → Request → OpenFDAResponse * World.
Variable device_class : option string.

(** [lookup_codes] issues one lookup for each code it is given. *)
Lemma lookup_codes_requests pcs : ∀ acc o,
  requests (lookup_codes queryOpenFDA device_class pcs acc o).2
  = requests o ++ (lookup_request device_class <$> pcs).
Proof.
  induction pcs as [|pc pcs IH]; intros acc o; cbn [lookup_codes].
  - by rewrite app_nil_r.
  - rewrite call_spec.
    destruct (usable_results _); rewrite IH; unfold requests; cbn [calls];
      rewrite fmap_app; rewrite <- app_assoc; reflexivity.
Qed.

Lemma filter_lookups pcs :
  List.filter is_510k (lookup_request device_class <$> pcs) = [].
Proof. by induction pcs. Qed.

(** The 510(k) queries of the bridge: the candidates whose key was not seen
    before, in order; all of them unless a candidate led to a result. *)
Lemma bridge_combos_510k query cs : ∀ seen o,
  ∃ extra k,
    k ≤ length (dedup_keys seen cs)
    ∧ requests (bridge_io (bridge_combos queryOpenFDA device_class query cs (seen, o)))
      = requests o ++ extra
    ∧ List.filter is_510k extra = bridge_request <$> take k (dedup_keys seen cs)
    ∧ match bridge_combos queryOpenFDA device_class query cs (seen, o) with
      | Running st =>
          k = length (dedup_keys seen cs)
          ∧ st.1 = list_to_set (join "+" <$> cs) ∪ seen
      | Returned _ _ => True
      end.
Proof.
  induction cs as [|combo cs IH]; intros seen o; cbn [bridge_combos dedup_keys fst snd].
  { exists [], 0. rewrite app_nil_r. split_and!; [done..|]. cbn. set_solver. }
  destruct (decide (join "+" combo ∈ seen)) as [Hin|Hin].
  { destruct (IH seen o) as (extra & k & Hk & Hreq & Hf & Hend).
    exists extra, k. split_and!; [done..|].
    destruct (bridge_combos _ _ _ cs (seen, o)) as [|st]; [done|].
    destruct Hend as [? ->]. split; [done|]. cbn [fmap list_fmap]. set_solver. }
  rewrite call_spec.
  set (data := (queryOpenFDA (world o) (bridge_request combo)).1).
  set (o1 := {| world := (queryOpenFDA (world o) (bridge_request combo)).2;
                calls := calls o ++ [(bridge_request combo, data)] |}).
  assert (requests o1 = requests o ++ [bridge_request combo]) as Ho1
    by (unfold requests, o1; cbn [calls]; by rewrite fmap_app).
  assert (∀ o2 lookups,
    requests o2 = requests o1 ++ (lookup_request device_class <$> lookups) →
    ∃ extra k,
      k ≤ length (combo :: dedup_keys ({[join "+" combo]} ∪ seen) cs)
      ∧ requests (bridge_io (bridge_combos queryOpenFDA device_class query cs
                               ({[join "+" combo]} ∪ seen, o2)))
        = requests o ++ extra
      ∧ List.filter is_510k extra
        = bridge_request <$> take k (combo :: dedup_keys ({[join "+" combo]} ∪ seen) cs)
      ∧ match bridge_combos queryOpenFDA device_class query cs
                ({[join "+" combo]} ∪ seen, o2) with
        | Running st =>
            k = length (combo :: dedup_keys ({[join "+" combo]} ∪ seen) cs)
            ∧ st.1 = list_to_set (join "+" <$> combo :: cs) ∪ seen
        | Returned _ _ => True
        end) as Hrest.
  { intros o2 lookups Ho2.
    destruct (IH ({[join "+" combo]} ∪ seen) o2) as (extra & k & Hk & Hreq & Hf & Hend).
    exists ([bridge_request combo] ++ (lookup_request device_class <$> lookups) ++ extra),
      (S k).
    split_and!.
    - cbn [length]. lia.
    - by rewrite Hreq, Ho2, Ho1, <- !app_assoc.
    - rewrite !List.filter_app, filter_lookups, Hf. done.
    - destruct (bridge_combos _ _ _ cs _) as [|st]; [done|].
      destruct Hend as [-> ->]. split; [done|].
      cbn [fmap list_fmap]. set_solver. }
  destruct (usable_results data) as [rs|].
  - destruct (length (collect_codes rs) =? 0).
    { apply (Hrest o1 []). by rewrite app_nil_r. }
    pose proof (lookup_codes_requests (collect_codes rs).*1 ([], []) o1) as Hl.
    destruct (lookup_codes _ _ _ _ o1) as [[found urls] o2]. cbn [snd] in Hl.
    destruct (length found =? 0); [by apply (Hrest o2 (collect_codes rs).*1)|].
    cbn [bridge_io].
    exists ([bridge_request combo] ++ (lookup_request device_class <$> (collect_codes rs).*1)), 1.
    split_and!; [cbn [length]; lia|by rewrite Hl, Ho1, <- app_assoc| |done].
    by rewrite List.filter_app, filter_lookups.
  - apply (Hrest o1 []). by rewrite app_nil_r.
Qed.

Lemma bridge_termSets_510k query tsets : ∀ seen o,
  ∃ extra k,
    k ≤ length (dedup_keys seen (tsets ≫= topCombos))
    ∧ requests (bridge_io (bridge_termSets queryOpenFDA device_class query tsets (seen, o)))
      = requests o ++ extra
    ∧ List.filter is_510k extra
      = bridge_request <$> take k (dedup_keys seen (tsets ≫= topCombos))
    ∧ match bridge_termSets queryOpenFDA device_class query tsets (seen, o) with
      | Running st => k = length (dedup_keys seen (tsets ≫= topCombos))
      | Returned _ _ => True
      end.
Proof.
  induction tsets as [|terms tsets IH]; intros seen o; cbn [bridge_termSets].
  { exists [], 0. by rewrite app_nil_r. }
  rewrite bind_cons, dedup_keys_app.
  destruct (bridge_combos_510k query (topCombos terms) seen o)
    as (extra1 & k1 & Hk1 & Hreq1 & Hf1 & Hend1).
  destruct (bridge_combos _ _ _ (topCombos terms) (seen, o)) as [r o'|[seen1 o1]].
  - exists extra1, k1. rewrite length_app, take_app_le by done. split_and!; [lia|done..].
  - destruct Hend1 as [-> Hseen]. cbn [fst bridge_io snd] in *. subst seen1.
    destruct (IH (list_to_set (join "+" <$> topCombos terms) ∪ seen) o1)
      as (extra2 & k2 & Hk2 & Hreq2 & Hf2 & Hend2).
    exists (extra1 ++ extra2), (length (dedup_keys seen (topCombos terms)) + k2).
    rewrite length_app, take_app_add, List.filter_app, Hf1, Hf2, fmap_app, take_ge by done.
    split_and!; [lia|by rewrite Hreq2, Hreq1, <- app_assoc|done|].
    destruct (bridge_termSets _ _ _ tsets _); [done|]. lia.
Qed.

Lemma dedup_keys_NoDup cs : ∀ seen, NoDup (join "+" <$> dedup_keys seen cs).
Proof.
  assert (∀ cs seen c, c ∈ dedup_keys seen cs → join "+" c ∉ seen) as Hfresh.
  { clear. induction cs as [|c' cs IH]; intros seen c; cbn [dedup_keys].
    - by intros ?%elem_of_nil.
    - destruct (decide (join "+" c' ∈ seen)); [apply IH|].
      intros [->|Hc%IH]%elem_of_cons; [done|]. set_solver. }
  induction cs as [|c cs IH]; intros seen; cbn [dedup_keys]; [apply NoDup_nil_2|].
  destruct (decide (join "+" c ∈ seen)); [apply IH|].
  cbn [fmap list_fmap]. apply NoDup_cons. split; [|apply IH].
  intros (c' & Heq & Hc'%Hfresh)%list_elem_of_fmap. set_solver.
Qed.

(** The queries the bridge sends to the 510(k) collection are those of the
    candidates of the expanded and then the original terms (the first eight
    combinations of two or more terms, then the single specific terms of five
    or more characters), one for each [seen510k] key in the order of first
    appearance; all of them are sent unless a candidate leads to a result.
    Every other call of the bridge is a classification lookup. *)
Lemma bridge_candidate_queries (originalTerms expandedTerms : list string)
    (query : string) (o : IO World) :
  let candidates :=
    dedup_keys ∅ (topCombos expandedTerms ++ topCombos originalTerms) in
  let result :=
    bridgeVia510k queryOpenFDA device_class originalTerms query expandedTerms o in
  NoDup (join "+" <$> candidates)
  ∧ ∃ extra k,
      requests result.2 = requests o ++ extra
      ∧ List.filter is_510k extra = bridge_request <$> take k candidates
      ∧ (result.1 = None → k = length candidates).
Proof.
  intros candidates result. split; [apply dedup_keys_NoDup|].
  destruct (bridge_termSets_510k query [expandedTerms; originalTerms] ∅ o)
    as (extra & k & Hk & Hreq & Hf & Hend).
  assert ([expandedTerms; originalTerms] ≫= topCombos
          = topCombos expandedTerms ++ topCombos originalTerms) as Heq
    by (cbn [mbind list_bind]; by rewrite app_nil_r).
  rewrite Heq in *. exists extra, k. unfold result, bridgeVia510k.
  destruct (bridge_termSets _ _ _ _ _) as [r o'|st]; cbn [fst snd bridge_io] in *.
  - split_and!; [done..|]. discriminate.
  - split_and!; done.
Qed.
End BridgeTrace.

(** ** Scenarios *)

(** The query "bp monitor" expands to [blood, pressure, monitor].  The
    full-length combination and the three pairs find nothing (the service
    matches the single word only), nor does the single term "blood"; the
    single term "pressure" finds DXN, which covers "bp" through its synonym
    words, half of the original terms: a strong match on the 11th call. *)
Example scenario_strong :
  let run := classify_device small_service None (Some "bp monitor") None None tt in
  (∃ data url, run.1 = ClassificationResults data url
               ∧ results data = Some [dxn]
               ∧ url = attempt None 10 "device_name" ["pressure"])
  ∧ length (calls run.2) = 11.
Proof. vm_compute. split; [|reflexivity]. eexists _, _. split_and!; reflexivity. Qed.

(** Nothing is found in the classification, the 510(k) record found through
    "cuff" carries the code DXN, and the lookup of that code succeeds: the
    bridge answers with that one entry. *)
Example scenario_bridged :
  let run := classify_device small_service None (Some "smart cuffs") None None tt in
  ∃ report, run.1 = BridgeText report
            ∧ classificationResults report = [dxn]
            ∧ (productCodes report).*1 = ["DXN"]
            ∧ last (requests run.2) = Some (lookup_request None "DXN").
Proof. vm_compute. eexists. split_and!; reflexivity. Qed.

(** ** Validation *)

Lemma lower_ascii_k_p c :
  (lower_ascii c =? "k")%char = true → (lower_ascii c =? "p")%char = false.
Proof. intros H%Ascii.eqb_eq. rewrite H. reflexivity. Qed.

Lemma K_NUMBER_RE_length v : K_NUMBER_RE v = true → 7 ≤ String.length v.
Proof.
  destruct v as [|c d]; [done|]. cbn [K_NUMBER_RE String.length].
  rewrite !andb_true_iff, orb_true_iff, !Nat.eqb_eq. lia.
Qed.

Lemma PMA_NUMBER_RE_length v : PMA_NUMBER_RE v = true → String.length v = 7.
Proof.
  destruct v as [|c d]; [done|]. cbn [PMA_NUMBER_RE String.length].
  rewrite !andb_true_iff, !Nat.eqb_eq. lia.
Qed.

Lemma PRODUCT_CODE_RE_length v : PRODUCT_CODE_RE v = true → String.length v = 3.
Proof. unfold PRODUCT_CODE_RE. rewrite andb_true_iff, Nat.eqb_eq. tauto. Qed.

Lemma K_PMA_disjoint v : K_NUMBER_RE v = true → PMA_NUMBER_RE v = false.
Proof.
  destruct v as [|c d]; [done|]. cbn [K_NUMBER_RE PMA_NUMBER_RE].
  rewrite !andb_true_iff. intros [[Hk _] _]. by rewrite (lower_ascii_k_p _ Hk).
Qed.

(** X1: [validateProductCode] accepts exactly the strings of three letters;
    the three formats exclude each other, so each message is given for its
    own format whatever the order of the tests. *)
Theorem validateProductCode_spec (value : string) :
  (validateProductCode value = None
     ↔ String.length value = 3 ∧ all_chars is_letter value = true)
  ∧ (validateProductCode value = Some LooksLike510k ↔ K_NUMBER_RE value = true)
  ∧ (validateProductCode value = Some LooksLikePMA ↔ PMA_NUMBER_RE value = true)
  ∧ (validateProductCode value = Some NotThreeLetters
       ↔ K_NUMBER_RE value = false ∧ PMA_NUMBER_RE value = false
         ∧ PRODUCT_CODE_RE value = false).
Proof.
  unfold validateProductCode.
  pose proof (K_NUMBER_RE_length value) as HK.
  pose proof (PMA_NUMBER_RE_length value) as HP.
  pose proof (PRODUCT_CODE_RE_length value) as HC.
  pose proof (K_PMA_disjoint value) as HKP.
  assert (PRODUCT_CODE_RE value = true
          ↔ String.length value = 3 ∧ all_chars is_letter value = true) as Hre
    by (unfold PRODUCT_CODE_RE; by rewrite andb_true_iff, Nat.eqb_eq).
  destruct (K_NUMBER_RE value), (PMA_NUMBER_RE value), (PRODUCT_CODE_RE value);
    cbn [negb]; rewrite <- ?Hre; try specialize (HK eq_refl); try specialize (HP eq_refl);
    try specialize (HC eq_refl); try specialize (HKP eq_refl);
    split_and!; split; try done; try lia; try (intros (? & ? & ?); done).
Qed.

(** ** Dates *)

Lemma is_digit_not_dash c : is_digit c = true → (c =? "-")%char = false.
Proof.
  intros H. destruct (Ascii.eqb_spec c "-") as [->|]; [|done]. discriminate H.
Qed.

Lemma DATE_RE_inv d :
  DATE_RE d = true →
  ∃ y1 y2 y3 y4 m1 m2 d1 d2,
    d = String y1 (String y2 (String y3 (String y4 (String "-"
          (String m1 (String m2 (String "-" (String d1 (String d2 "")))))))))
    ∧ Forall (λ c, is_digit c = true) [y1; y2; y3; y4; m1; m2; d1; d2].
Proof.
  unfold DATE_RE.
  do 11 (destruct d as [|? d]; try done). cbn [list_ascii_of_string].
  rewrite !andb_true_iff, !Ascii.eqb_eq.
  intros [[[[[[[[[? ?] ?] ?] ->] ?] ?] ->] ?] ?].
  eexists _, _, _, _, _, _, _, _. split; [done|]. repeat constructor; done.
Qed.

Lemma stripDashes_DATE_RE d :
  DATE_RE d = true →
  EIGHT_DIGITS_RE (stripDashes d) = true
  ∧ count_char "-" (stripDashes d) = 0
  ∧ normalizeDateResponse (Some (stripDashes d)) = Some d.
Proof.
  intros Hd. apply DATE_RE_inv in Hd as (y1 & y2 & y3 & y4 & m1 & m2 & d1 & d2 & -> & Hdig).
  repeat match goal with H : Forall _ (_ :: _) |- _ =>
    apply Forall_cons in H as [? H] end.
  assert (stripDashes
    (String y1 (String y2 (String y3 (String y4 (String "-"
       (String m1 (String m2 (String "-" (String d1 (String d2 ""))))))))))
    = String y1 (String y2 (String y3 (String y4
        (String m1 (String m2 (String d1 (String d2 "")))))))) as ->.
  { cbn [stripDashes]. rewrite !is_digit_not_dash by done.
    rewrite !Ascii.eqb_refl. rewrite !is_digit_not_dash by done. reflexivity. }
  split_and!.
  - unfold EIGHT_DIGITS_RE. cbn [String.length all_chars Nat.eqb andb].
    by repeat (match goal with H : is_digit _ = true |- _ => rewrite H; clear H end).
  - cbn [count_char]. rewrite !is_digit_not_dash by done. reflexivity.
  - unfold normalizeDateResponse, EIGHT_DIGITS_RE.
    cbn [truthy String.eqb negb String.length all_chars Nat.eqb andb].
    by repeat (match goal with H : is_digit _ = true |- _ => rewrite H; clear H end).
Qed.

(** X2: a date that passes [validateDate] survives the way to the service
    and back: stripped of its dashes it is eight digits without a dash, and
    [normalizeDateResponse] turns that into the date again. *)
Theorem date_round_trip (d : string) :
  validateDate d = None →
  EIGHT_DIGITS_RE (stripDashes d) = true
  ∧ count_char "-" (stripDashes d) = 0
  ∧ normalizeDateResponse (Some (stripDashes d)) = Some d.
Proof.
  unfold validateDate. destruct (DATE_RE d) eqn:Hd; [|done]. intros _.
  by apply stripDashes_DATE_RE.
Qed.

Lemma date_round_trip_witness :
  validateDate "2024-01-15" = None
  ∧ normalizeDateResponse (Some (stripDashes "2024-01-15")) = Some "2024-01-15".
Proof.
  split; [reflexivity|]. apply (date_round_trip "2024-01-15"). reflexivity.
Defined.

Lemma EIGHT_DIGITS_RE_inv d :
  EIGHT_DIGITS_RE d = true →
  ∃ y1 y2 y3 y4 m1 m2 d1 d2,
    d = String y1 (String y2 (String y3 (String y4
          (String m1 (String m2 (String d1 (String d2 "")))))))
    ∧ Forall (λ c, is_digit c = true) [y1; y2; y3; y4; m1; m2; d1; d2].
Proof.
  unfold EIGHT_DIGITS_RE. rewrite andb_true_iff, Nat.eqb_eq. intros [Hlen Hall].
  do 9 (destruct d as [|? d]; try done). cbn [all_chars] in Hall.
  rewrite !andb_true_iff in Hall.
  eexists _, _, _, _, _, _, _, _. split; [done|]. repeat constructor; tauto.
Qed.

Lemma normalize_eight_digits d :
  EIGHT_DIGITS_RE d = true →
  ∃ d', normalizeDateResponse (Some d) = Some d'
        ∧ DATE_RE d' = true ∧ stripDashes d' = d.
Proof.
  intros (y1 & y2 & y3 & y4 & m1 & m2 & d1 & d2 & -> & Hdig)%EIGHT_DIGITS_RE_inv.
  repeat match goal with H : Forall _ (_ :: _) |- _ =>
    apply Forall_cons in H as [? H] end.
  exists (String y1 (String y2 (String y3 (String y4 (String "-"
            (String m1 (String m2 (String "-" (String d1 (String d2 "")))))))))).
  split_and!.
  - unfold normalizeDateResponse, EIGHT_DIGITS_RE.
    cbn [truthy String.eqb negb String.length all_chars Nat.eqb andb].
    repeat (match goal with H : is_digit _ = true |- _ => rewrite H end).
    reflexivity.
  - unfold DATE_RE. cbn [list_ascii_of_string]. rewrite !Ascii.eqb_refl.
    by repeat (match goal with H : is_digit _ = true |- _ => rewrite H; clear H end).
  - cbn [stripDashes]. rewrite !is_digit_not_dash by done.
    rewrite !Ascii.eqb_refl. rewrite !is_digit_not_dash by done. reflexivity.
Qed.

(** X3: [normalizeDateResponse] answers [null] exactly for a missing or
    empty date; eight digits come back as a date in the format
    [validateDate] accepts, which [stripDashes] maps back to the input; any
    other text comes back unchanged, so normalizing twice changes nothing. *)
Theorem normalizeDateResponse_spec (date : option string) (d : string) :
  (normalizeDateResponse date = None ↔ truthy date = false)
  ∧ (EIGHT_DIGITS_RE d = true →
       ∃ d', normalizeDateResponse (Some d) = Some d'
             ∧ validateDate d' = None ∧ stripDashes d' = d)
  ∧ (d ≠ "" → EIGHT_DIGITS_RE d = false → normalizeDateResponse (Some d) = Some d)
  ∧ normalizeDateResponse (normalizeDateResponse date) = normalizeDateResponse date.
Proof.
  assert (∀ d, d ≠ "" → EIGHT_DIGITS_RE d = false →
               normalizeDateResponse (Some d) = Some d) as Hother.
  { clear. intros d Hd H8. unfold normalizeDateResponse. rewrite H8. cbn [truthy].
    destruct (String.eqb_spec d ""); [done|]. cbn [negb]. by destruct (DATE_RE d). }
  split_and!.
  - clear d. destruct date as [d|]; [|done]. cbn [truthy].
    destruct (String.eqb_spec d "") as [->|Hd]; [done|]. cbn [negb].
    destruct (EIGHT_DIGITS_RE d) eqn:H8.
    + destruct (normalize_eight_digits d H8) as (d' & -> & _). done.
    + by rewrite Hother.
  - intros H8. destruct (normalize_eight_digits d H8) as (d' & -> & Hre & Hs).
    exists d'. split_and!; [done| |done]. unfold validateDate. by rewrite Hre.
  - apply Hother.
  - clear d. destruct date as [d|]; [|done].
    destruct (String.eqb_spec d "") as [->|Hd]; [done|].
    destruct (EIGHT_DIGITS_RE d) eqn:H8; [|by rewrite !Hother].
    destruct (normalize_eight_digits d H8) as (d' & -> & Hre & Hs).
    apply Hother.
    + intros ->. discriminate Hre.
    + unfold EIGHT_DIGITS_RE. apply DATE_RE_inv in Hre as (?&?&?&?&?&?&?&?&->&_).
      reflexivity.
Qed.

Lemma normalizeDateResponse_spec_witness :
  EIGHT_DIGITS_RE "20240115" = true
  ∧ ∃ d', normalizeDateResponse (Some "20240115") = Some d'
          ∧ validateDate d' = None ∧ stripDashes d' = "20240115".
Proof.
  split; [reflexivity|].
  apply (normalizeDateResponse_spec None "20240115"). reflexivity.
Defined.

(** ** Strings *)

Lemma append_nil_r s : s +:+ "" = s.
Proof. induction s as [|c s IH]; [done|]. by rewrite append_cons, IH. Qed.

Lemma append_assoc a b c : (a +:+ b) +:+ c = a +:+ b +:+ c.
Proof. induction a as [|x a IH]; [done|]. by rewrite !append_cons, IH. Qed.

Lemma rev_app_append a : ∀ b, String.rev_app a b = String.rev a +:+ b.
Proof.
  unfold String.rev. induction a as [|x a IH]; intros b; [done|].
  cbn [String.rev_app]. rewrite (IH (String x b)), (IH (String x "")).
  by rewrite append_assoc.
Qed.

Lemma rev_cons c s : String.rev (String c s) = String.rev s +:+ String c "".
Proof. unfold String.rev at 1. cbn [String.rev_app]. apply rev_app_append. Qed.

Lemma rev_append a b : String.rev (a +:+ b) = String.rev b +:+ String.rev a.
Proof.
  induction a as [|x a IH]; [by rewrite append_nil_r|].
  by rewrite append_cons, !rev_cons, IH, append_assoc.
Qed.

Lemma rev_involutive s : String.rev (String.rev s) = s.
Proof.
  induction s as [|c s IH]; [done|]. by rewrite rev_cons, rev_append, IH.
Qed.

Lemma count_char_app c a b : count_char c (a +:+ b) = count_char c a + count_char c b.
Proof.
  induction a as [|x a IH]; [done|]. rewrite append_cons. cbn [count_char].
  rewrite IH. lia.
Qed.

Lemma count_char_rev c s : count_char c (String.rev s) = count_char c s.
Proof.
  induction s as [|x s IH]; [done|]. rewrite rev_cons, count_char_app, IH.
  cbn [count_char]. lia.
Qed.

(** ** Links *)

Lemma split_char_go_length sep s : ∀ cur,
  length (split_char_go sep cur s) = S (count_char sep s).
Proof.
  induction s as [|c s IH]; intros cur; [done|]. cbn [split_char_go count_char].
  destruct (c =? sep)%char; cbn [length]; by rewrite IH.
Qed.

Lemma split_char_go_join sep s : ∀ cur,
  join (String sep "") (split_char_go sep cur s) = String.rev cur +:+ s.
Proof.
  induction s as [|c s IH]; intros cur; cbn [split_char_go].
  - cbn [join]. by rewrite append_nil_r.
  - destruct (Ascii.eqb_spec c sep) as [->|Hc].
    + pose proof (split_char_go_length sep s "") as Hlen.
      specialize (IH ""). 
      destruct (split_char_go sep "" s) as [|p rest]; [discriminate Hlen|].
      cbn [join] in *. by rewrite IH.
    + by rewrite IH, rev_cons, append_assoc.
Qed.

Lemma split_char_go_pieces sep s : ∀ cur,
  count_char sep cur = 0 →
  Forall (λ p, count_char sep p = 0) (split_char_go sep cur s).
Proof.
  induction s as [|c s IH]; intros cur Hcur; cbn [split_char_go].
  - constructor; [by rewrite count_char_rev|constructor].
  - destruct (Ascii.eqb_spec c sep) as [->|Hc].
    + constructor; [by rewrite count_char_rev|]. by apply IH.
    + apply IH. cbn [count_char]. rewrite Hcur.
      by destruct (Ascii.eqb_spec c sep).
Qed.

(** X4: [linkECFR] gives no link exactly when the regulation number does not
    hold one full stop; otherwise the number is [part.section] with no full
    stop in [part], and the link names [part] and then the whole number. *)
Theorem linkECFR_spec (regulationNumber : string) :
  (linkECFR regulationNumber = "" ↔ count_char "." regulationNumber ≠ 1)
  ∧ (count_char "." regulationNumber = 1 →
     ∃ part section,
       regulationNumber = part +:+ "." +:+ section
       ∧ count_char "." part = 0 ∧ count_char "." section = 0
       ∧ linkECFR regulationNumber =
           "https://www.ecfr.gov/current/title-21/chapter-I/subchapter-H/part-"
             +:+ part +:+ "/section-" +:+ regulationNumber).
Proof.
  unfold linkECFR, split_char.
  pose proof (split_char_go_length "." regulationNumber "") as Hlen.
  pose proof (split_char_go_join "." regulationNumber "") as Hjoin.
  pose proof (split_char_go_pieces "." regulationNumber "" eq_refl) as Hpieces.
  cbv zeta. split.
  - rewrite Hlen. destruct (Nat.eqb_spec (S (count_char "." regulationNumber)) 2) as [H|H];
      cbn [negb].
    + split; [discriminate|]. lia.
    + split; [|done]. lia.
  - intros H1. rewrite Hlen, H1. cbn [Nat.eqb negb].
    destruct (split_char_go "." "" regulationNumber) as [|part [|section [|]]];
      cbn [length] in Hlen; try lia.
    exists part, section. cbn [join] in Hjoin. cbn [nth].
    apply Forall_cons in Hpieces as [Hp Hs%Forall_cons_1].
    by destruct Hs.
Qed.

Lemma linkECFR_spec_witness :
  ∃ part section,
    "870.1130" = part +:+ "." +:+ section
    ∧ count_char "." part = 0 ∧ count_char "." section = 0
    ∧ linkECFR "870.1130" =
        "https://www.ecfr.gov/current/title-21/chapter-I/subchapter-H/part-"
          +:+ part +:+ "/section-" +:+ "870.1130".
Proof. apply (linkECFR_spec "870.1130"). reflexivity. Defined.

(** ** Words of a query *)

Lemma all_chars_app p a b : all_chars p (a +:+ b) = all_chars p a && all_chars p b.
Proof.
  induction a as [|c a IH]; [done|]. rewrite append_cons. cbn [all_chars].
  by rewrite IH, andb_assoc.
Qed.

Lemma all_chars_rev p s : all_chars p (String.rev s) = all_chars p s.
Proof.
  induction s as [|c s IH]; [done|]. rewrite rev_cons, all_chars_app, IH.
  cbn [all_chars]. rewrite andb_true_r. apply andb_comm.
Qed.

Lemma head_ok_app_l a b : head_ok (a +:+ b) = true → head_ok a = true.
Proof. by destruct a. Qed.

Lemma rev_nil_inv s : String.rev s = "" → s = "".
Proof. intros H. by rewrite <-(rev_involutive s), H. Qed.

Lemma word_spec s : word s = true ↔ s ≠ "" ∧ no_space s = true.
Proof.
  unfold word. rewrite andb_true_iff, negb_true_iff.
  by destruct (String.eqb_spec s "") as [->|]; naive_solver.
Qed.

Lemma trimStart_spec s :
  ∃ ws, s = ws +:+ trimStart s ∧ blank ws = true ∧ head_ok (trimStart s) = true.
Proof.
  induction s as [|c s (ws & Hs & Hws & Hh)]; [by exists ""|].
  cbn [trimStart]. destruct (isSpace c) eqn:Hc.
  - exists (String c ws). rewrite append_cons, <-Hs. unfold blank. cbn [all_chars].
    by rewrite Hc.
  - exists "". cbn [head_ok]. by rewrite Hc.
Qed.

Lemma trim_spec q :
  ∃ ws1 ws2, q = ws1 +:+ trim q +:+ ws2 ∧ blank ws1 = true ∧ blank ws2 = true
             ∧ head_ok (trim q) = true ∧ head_ok (String.rev (trim q)) = true.
Proof.
  unfold trim. destruct (trimStart_spec q) as (ws1 & Hq & Hws1 & Ha).
  destruct (trimStart_spec (String.rev (trimStart q))) as (w & Hr & Hw & Hb).
  set (a := trimStart q) in *. set (b := trimStart (String.rev a)) in *.
  assert (a = String.rev b +:+ String.rev w) as Ha'.
  { by rewrite <-rev_append, <-Hr, rev_involutive. }
  exists ws1, (String.rev w). split_and!.
  - by rewrite <-Ha'.
  - done.
  - unfold blank. by rewrite all_chars_rev.
  - apply (head_ok_app_l _ (String.rev w)). by rewrite <-Ha'.
  - by rewrite rev_involutive.
Qed.

Lemma trim_blank q : blank q = true → trim q = "".
Proof.
  intros Hq. destruct (trim_spec q) as (ws1 & ws2 & Heq & _ & _ & Hh & _).
  rewrite Heq in Hq. unfold blank in Hq.
  rewrite !all_chars_app, !andb_true_iff in Hq. destruct Hq as (_ & Ht & _).
  destruct (trim q) as [|c t]; [done|]. cbn in Hh, Ht.
  destruct (isSpace c); discriminate || done.
Qed.

Lemma trim_not_blank q : blank q = false → trim q ≠ "".
Proof.
  intros Hq Ht. destruct (trim_spec q) as (ws1 & ws2 & Heq & H1 & H2 & _).
  rewrite Ht in Heq. rewrite Heq in Hq. unfold blank in *.
  rewrite !all_chars_app, H1, H2 in Hq. discriminate Hq.
Qed.

Lemma split_go_no_space s : ∀ cur in_ws,
  no_space cur = true → Forall (λ t, no_space t = true) (split_go cur in_ws s).
Proof.
  unfold no_space.
  induction s as [|c s IH]; intros cur in_ws Hcur; cbn [split_go].
  - constructor; [by rewrite all_chars_rev|constructor].
  - destruct (isSpace c) eqn:Hc.
    + destruct in_ws; [by apply IH|].
      constructor; [by rewrite all_chars_rev|]. by apply IH.
    + apply IH. cbn [all_chars]. by rewrite Hc.
Qed.

Lemma split_go_words s : ∀ cur in_ws,
  no_space cur = true →
  head_ok (String.rev s) = true →
  cur ≠ "" ∨ (in_ws = true ∧ s ≠ "") ∨ (s ≠ "" ∧ head_ok s = true) →
  Forall (λ t, word t = true) (split_go cur in_ws s).
Proof.
  induction s as [|c s IH]; intros cur in_ws Hcur Hlast Hfirst; cbn [split_go].
  - destruct Hfirst as [Hne|[[_ []]|[[] _]]]; [|done..].
    constructor; [|constructor]. apply word_spec. split.
    + intros H%rev_nil_inv. done.
    + unfold no_space. by rewrite all_chars_rev.
  - assert (head_ok (String.rev s) = true) as Hlast'.
    { rewrite rev_cons in Hlast. by apply head_ok_app_l in Hlast. }
    destruct (isSpace c) eqn:Hc.
    + assert (s ≠ "") as Hs.
      { intros ->. cbn in Hlast. by rewrite Hc in Hlast. }
      destruct in_ws.
      * apply IH; [done..|]. right; left. done.
      * destruct Hfirst as [Hne|[[? _]|[_ Hh]]]; [|done|].
        -- constructor; [|apply IH; [done..|by right; left]].
           apply word_spec. split; [by intros ?%rev_nil_inv|].
           unfold no_space. by rewrite all_chars_rev.
        -- cbn in Hh. by rewrite Hc in Hh.
    + apply IH; [|done|by left]. unfold no_space. cbn [all_chars]. by rewrite Hc.
Qed.

Lemma split_go_word w : ∀ c cur in_ws rest,
  no_space (String c w) = true →
  split_go cur in_ws (String c w +:+ rest)
  = split_go (String.rev_app (String c w) cur) false rest.
Proof.
  unfold no_space.
  induction w as [|c' w IH]; intros c cur in_ws rest Hw;
    rewrite append_cons; cbn [split_go]; cbn [all_chars] in Hw;
    apply andb_true_iff in Hw as [Hc%negb_true_iff Hw]; rewrite Hc.
  - done.
  - by rewrite IH.
Qed.

Lemma split_go_join ts : ∀ in_ws,
  ts ≠ [] → Forall (λ t, word t = true) ts →
  split_go "" in_ws (join " " ts) = ts.
Proof.
  induction ts as [|t ts IH]; intros in_ws Hne Hts; [done|].
  apply Forall_cons in Hts as [[Ht Hsp]%word_spec Hts].
  destruct t as [|c t]; [done|].
  destruct ts as [|t' ts].
  - cbn [join]. rewrite <-(append_nil_r (String c t)) at 1.
    rewrite split_go_word by done. cbn [split_go].
    by rewrite rev_app_append, append_nil_r, rev_involutive.
  - change (join " " (String c t :: t' :: ts))
      with (String c t +:+ " " +:+ join " " (t' :: ts)).
    rewrite split_go_word by done.
    change (" " +:+ join " " (t' :: ts)) with (String " " (join " " (t' :: ts))).
    cbn [split_go]. change (isSpace " ") with true. cbv iota.
    rewrite (IH true) by done.
    by rewrite rev_app_append, append_nil_r, rev_involutive.
Qed.

Lemma join_words_head ts :
  ts ≠ [] → Forall (λ t, word t = true) ts →
  join " " ts ≠ "" ∧ head_ok (join " " ts) = true.
Proof.
  intros Hne Hts. destruct ts as [|t ts]; [done|].
  apply Forall_cons in Hts as [[Ht Hsp]%word_spec _].
  destruct t as [|c t]; [done|]. unfold no_space in Hsp. cbn [all_chars] in Hsp.
  apply andb_true_iff in Hsp as [Hc _].
  destruct ts; cbn [join]; rewrite ?append_cons; done.
Qed.

Lemma rev_join sep ts :
  String.rev (join sep ts) = join (String.rev sep) (reverse (String.rev <$> ts)).
Proof.
  assert (∀ l p, join (String.rev sep) (l ++ [p])
                 = match l with [] => p | _ => join (String.rev sep) l
                                               +:+ String.rev sep +:+ p end) as Hsnoc.
  { induction l as [|x l IHl]; intros p; [done|].
    change ((x :: l) ++ [p]) with (x :: (l ++ [p])).
    destruct l as [|y l]; [done|].
    change (join (String.rev sep) (x :: (y :: l) ++ [p]))
      with (x +:+ String.rev sep +:+ join (String.rev sep) ((y :: l) ++ [p])).
    rewrite IHl.
    change (join (String.rev sep) (x :: y :: l))
      with (x +:+ String.rev sep +:+ join (String.rev sep) (y :: l)).
    by rewrite !append_assoc. }
  induction ts as [|t ts IH]; [done|].
  rewrite fmap_cons, reverse_cons, Hsnoc.
  destruct ts as [|t' ts]; [done|].
  change (join sep (t :: t' :: ts)) with (t +:+ sep +:+ join sep (t' :: ts)).
  rewrite !rev_append, IH, append_assoc.
  rewrite fmap_cons, reverse_cons.
  destruct (reverse (String.rev <$> ts)); done.
Qed.

Lemma trim_join_words ts :
  ts ≠ [] → Forall (λ t, word t = true) ts → trim (join " " ts) = join " " ts.
Proof.
  intros Hne Hts.
  assert (∀ s, s ≠ "" → head_ok s = true → trimStart s = s) as Hid.
  { intros [|c s] ? Hh; [done|]. cbn in *. by destruct (isSpace c). }
  destruct (join_words_head ts Hne Hts) as [H1 H2].
  unfold trim. rewrite (Hid _ H1 H2).
  rewrite Hid; [apply rev_involutive|by intros ?%rev_nil_inv|].
  rewrite rev_join. apply join_words_head.
  - destruct ts as [|t ts]; [done|]. rewrite fmap_cons, reverse_cons.
    by destruct (reverse _).
  - rewrite Forall_reverse, Forall_fmap. eapply Forall_impl; [exact Hts|].
    intros t [Ht Hsp]%word_spec. apply word_spec. split.
    + by intros ?%rev_nil_inv.
    + unfold no_space. by rewrite all_chars_rev.
Qed.

Lemma buildSearchTerms_eq field query :
  buildSearchTerms field query
  = join "+AND+" ((λ t, field +:+ ":" +:+ t) <$> split_ws (trim query)).
Proof.
  unfold buildSearchTerms. cbv zeta.
  destruct (split_ws (trim query)) as [|t [|t' ts]]; done.
Qed.

Lemma all_chars_join p sep ts :
  all_chars p sep = true → Forall (λ t, all_chars p t = true) ts →
  all_chars p (join sep ts) = true.
Proof.
  intros Hsep. induction 1 as [|t ts Ht Hts IH]; [done|].
  destruct ts as [|t' ts]; [done|].
  change (join sep (t :: t' :: ts)) with (t +:+ sep +:+ join sep (t' :: ts)).
  by rewrite !all_chars_app, Ht, Hsep, IH.
Qed.

Lemma split_ws_trim_words query :
  blank query = false → Forall (λ t, word t = true) (split_ws (trim query)).
Proof.
  intros Hq. destruct (trim_spec query) as (_ & _ & _ & _ & _ & Hh & Hl).
  apply split_go_words; [done|done|]. right; right. split; [|done].
  by apply trim_not_blank.
Qed.

(** X5: for a combination of words (non-empty strings without white space),
    joining them with blanks and handing the text to [buildSearchTerms] gives
    one clause [field:word] per word, joined with [+AND+]; the words come back
    unchanged from the split. *)
Theorem buildSearchTerms_join (field : string) (combo : list string) :
  combo ≠ [] → Forall (λ t, word t = true) combo →
  split_ws (trim (join " " combo)) = combo
  ∧ buildSearchTerms field (join " " combo)
    = join "+AND+" ((λ t, field +:+ ":" +:+ t) <$> combo).
Proof.
  intros Hne Hwords.
  assert (split_ws (trim (join " " combo)) = combo) as Hsplit.
  { rewrite trim_join_words by done. by apply split_go_join. }
  split; [done|]. by rewrite buildSearchTerms_eq, Hsplit.
Qed.

Lemma buildSearchTerms_join_witness :
  split_ws (trim (join " " ["blood"; "pressure"; "cuff"])) = ["blood"; "pressure"; "cuff"]
  ∧ buildSearchTerms "device_name" (join " " ["blood"; "pressure"; "cuff"])
    = join "+AND+" ((λ t, "device_name" +:+ ":" +:+ t) <$> ["blood"; "pressure"; "cuff"]).
Proof.
  apply (buildSearchTerms_join "device_name" ["blood"; "pressure"; "cuff"]).
  - discriminate.
  - repeat constructor.
Defined.

(** X6: the search expression of [buildSearchTerms] is a conjunction of
    clauses [field:term], one per piece of the trimmed query; no piece holds
    white space, so the expression holds none when the field name holds none;
    the pieces are non-empty unless the query is blank, and a blank query
    gives the one clause [field:] with nothing after the colon. *)
Theorem buildSearchTerms_clauses (field query : string) :
  ∃ terms,
    buildSearchTerms field query = join "+AND+" ((λ t, field +:+ ":" +:+ t) <$> terms)
    ∧ terms ≠ []
    ∧ Forall (λ t, no_space t = true) terms
    ∧ (no_space field = true → no_space (buildSearchTerms field query) = true)
    ∧ (blank query = false → Forall (λ t, word t = true) terms)
    ∧ (blank query = true → buildSearchTerms field query = field +:+ ":").
Proof.
  exists (split_ws (trim query)).
  assert (Forall (λ t, no_space t = true) (split_ws (trim query))) as Hns.
  { by apply split_go_no_space. }
  split_and!.
  - apply buildSearchTerms_eq.
  - apply split_go_nonempty.
  - done.
  - intros Hf. rewrite buildSearchTerms_eq. apply all_chars_join; [done|].
    rewrite Forall_fmap. eapply Forall_impl; [exact Hns|].
    intros t Ht. cbn. unfold no_space in *. by rewrite !all_chars_app, Hf, Ht.
  - apply split_ws_trim_words.
  - intros Hq. rewrite buildSearchTerms_eq, (trim_blank _ Hq). cbn.
    by rewrite append_nil_r.
Qed.

(** ** Combinations as subsequences *)

Lemma pick_sublist l : ∀ pre s,
  s `sublist_of` seq (length pre) (length l) → pick (pre ++ l) s `sublist_of` l.
Proof.
  induction l as [|a l IH]; intros pre s Hs; cbn [length seq] in Hs.
  - apply sublist_nil_r in Hs as ->. done.
  - assert (∀ s', s' `sublist_of` seq (S (length pre)) (length l) →
                  pick (pre ++ a :: l) s' `sublist_of` l) as Hrest.
    { intros s' Hs'. rewrite (cons_middle a pre l), app_assoc. apply IH.
      by rewrite length_app, Nat.add_1_r. }
    apply sublist_cons_r in Hs as [Hs|(s' & -> & Hs')].
    + apply sublist_cons. by apply Hrest.
    + unfold pick at 1. rewrite fmap_cons, nth_middle. apply sublist_skip.
      by apply Hrest.
Qed.

Lemma sublist_pick l : ∀ pre c,
  c `sublist_of` l →
  ∃ s, s `sublist_of` seq (length pre) (length l) ∧ pick (pre ++ l) s = c.
Proof.
  induction l as [|a l IH]; intros pre c Hc.
  - apply sublist_nil_r in Hc as ->. by exists [].
  - assert (∀ c', c' `sublist_of` l →
        ∃ s, s `sublist_of` seq (S (length pre)) (length l)
             ∧ pick (pre ++ a :: l) s = c') as Hrest.
    { intros c' Hc'. destruct (IH (pre ++ [a]) c' Hc') as (s & Hs & Hp).
      exists s. rewrite length_app, Nat.add_1_r in Hs. split; [done|].
      by rewrite (cons_middle a pre l), app_assoc. }
    cbn [length seq].
    apply sublist_cons_r in Hc as [Hc|(c' & -> & Hc')].
    + destruct (Hrest c Hc) as (s & Hs & Hp). exists s. split; [|done].
      by apply sublist_cons.
    + destruct (Hrest c' Hc') as (s & Hs & Hp). exists (length pre :: s). split.
      * by apply sublist_skip.
      * unfold pick. rewrite fmap_cons, nth_middle. by rewrite <-Hp.
Qed.

Lemma pick_seq l : ∀ pre, pick (pre ++ l) (seq (length pre) (length l)) = l.
Proof.
  induction l as [|a l IH]; intros pre; [done|]. cbn [length seq].
  unfold pick. rewrite fmap_cons, nth_middle. f_equal.
  rewrite (cons_middle a pre l), app_assoc.
  specialize (IH (pre ++ [a])). by rewrite length_app, Nat.add_1_r in IH.
Qed.

Lemma subsets_gt m : ∀ start k, m < k → subsets m start k = [].
Proof.
  induction m as [|m IH]; intros start [|k] Hk; try lia; [done|].
  cbn [subsets]. rewrite !IH by lia. done.
Qed.

Lemma subsets_full m : ∀ start, subsets m start m = [seq start m].
Proof.
  induction m as [|m IH]; intros start; [done|]. cbn [subsets seq].
  by rewrite IH, subsets_gt by lia.
Qed.

Lemma getCombinationIndices_full n : getCombinationIndices n n = [seq 0 n].
Proof.
  apply Permutation_singleton_r.
  by rewrite getCombinationIndices_Permutation, subsets_full.
Qed.

Lemma elem_of_generateCombinations terms c :
  c ∈ generateCombinations terms ↔ c `sublist_of` terms ∧ (c = [] → terms = []).
Proof.
  destruct terms as [|t terms].
  { cbn. rewrite list_elem_of_singleton. split.
    - by intros ->.
    - intros [Hc _]. by apply sublist_nil_r in Hc. }
  rewrite generateCombinations_pick by (cbn; lia).
  rewrite list_elem_of_fmap. setoid_rewrite elem_of_indices_from_size. split.
  - intros (s & -> & Hs & Hl). split.
    + by apply (pick_sublist (t :: terms) []).
    + intros Hnil. apply (f_equal length) in Hnil. rewrite length_pick in Hnil.
      cbn [length] in Hnil. lia.
  - intros [Hc Hne]. destruct (sublist_pick (t :: terms) [] c Hc) as (s & Hs & Hp).
    exists s. split_and!; [done|done| |].
    + destruct s; [|cbn; lia]. subst c. by specialize (Hne eq_refl).
    + apply sublist_length in Hs. by rewrite length_seq in Hs.
Qed.

Lemma head_generateCombinations terms :
  head (generateCombinations terms) = Some terms.
Proof.
  unfold generateCombinations. destruct (length terms <=? 1) eqn:Hn; [done|].
  destruct (length terms) as [|n] eqn:Hlen; [done|]. cbn [combos_from_size].
  rewrite Hlen, getCombinationIndices_full. cbn [fmap list_fmap app head].
  f_equal. rewrite <-Hlen. apply (pick_seq terms []).
Qed.

Lemma sublist_full_length {A} (l : list A) : ∀ c,
  c `sublist_of` l → length l ≤ length c → c = l.
Proof.
  induction l as [|a l IH]; intros c Hc Hlen.
  - by apply sublist_nil_r in Hc.
  - apply sublist_cons_r in Hc as [Hc|(c' & -> & Hc')].
    + apply sublist_length in Hc. cbn in Hlen. lia.
    + f_equal. apply IH; [done|]. cbn in Hlen. lia.
Qed.

(** X7: the combinations of [generateCombinations] are exactly the
    subsequences of the terms, the empty one only for no terms at all; the
    first combination is the whole term list, and it is the only one of full
    length. *)
Theorem generateCombinations_subsequences (terms c : list string) :
  (c ∈ generateCombinations terms ↔ c `sublist_of` terms ∧ (c = [] → terms = []))
  ∧ head (generateCombinations terms) = Some terms
  ∧ (c ∈ generateCombinations terms → length terms ≤ length c → c = terms).
Proof.
  split_and!.
  - apply elem_of_generateCombinations.
  - apply head_generateCombinations.
  - intros [Hc _]%elem_of_generateCombinations. by apply sublist_full_length.
Qed.

Lemma elem_of_combos tu c : c ∈ combos tu ↔ c ∈ generateCombinations tu.
Proof.
  unfold combos. cbv zeta. rewrite !elem_of_app, !elem_of_list_filter.
  split; [naive_solver|]. intros Hc.
  pose proof Hc as [Hsub Hne]%elem_of_generateCombinations.
  pose proof (sublist_length _ _ Hsub) as Hlen.
  destruct (decide (length c = length tu)) as [Heq|Hneq].
  { left. split; [done|]. by apply Nat.eqb_eq. }
  right. destruct (decide (length c = 1)) as [H1|H1].
  { right; right. split; [done|]. by apply Nat.eqb_eq. }
  destruct (decide (length c ≤ 3)) as [H3|H3].
  - left. split; [done|].
    assert (2 ≤ length c).
    { destruct c; [|cbn in *; lia]. rewrite Hne in Hneq by done. done. }
    rewrite !andb_true_iff, !Nat.leb_le, Nat.ltb_lt. lia.
  - right; left. split; [done|]. rewrite andb_true_iff, !Nat.ltb_lt. lia.
Qed.

Lemma head_combos tu : head (combos tu) = Some tu.
Proof.
  unfold combos. cbv zeta. pose proof (head_generateCombinations tu) as Hh.
  destruct (generateCombinations tu) as [|c cs]; [done|]. injection Hh as ->.
  cbn [List.filter]. by rewrite Nat.eqb_refl.
Qed.

(** X8: the broadening loop tries, for a term list, exactly its subsequences
    (the empty one only when there are no terms), whatever bucket a
    combination falls into, and the first combination tried is the whole
    list. *)
Theorem combos_subsequences (tu c : list string) :
  (c ∈ combos tu ↔ c `sublist_of` tu ∧ (c = [] → tu = []))
  ∧ head (combos tu) = Some tu.
Proof.
  split; [|apply head_combos].
  by rewrite elem_of_combos, elem_of_generateCombinations.
Qed.

(** ** The score as a share of covered pairs *)












(** ** What the score does not depend on *)

Lemma lower_ascii_idem c : lower_ascii (lower_ascii c) = lower_ascii c.
Proof. by destruct c as [[] [] [] [] [] [] [] []]. Qed.

Lemma toLowerCase_idem s : toLowerCase (toLowerCase s) = toLowerCase s.
Proof.
  unfold toLowerCase. induction s as [|c s IH]; [done|]. cbn [map_string].
  by rewrite lower_ascii_idem, IH.
Qed.







(** ** Expansion without synonyms, and up to case *)





Lemma dedup_ci_lower ws : ∀ seen,
  toLowerCase <$> dedup_ci seen ws = dedup_ci seen (toLowerCase <$> ws).
Proof.
  induction ws as [|w ws IH]; intros seen; [done|].
  rewrite fmap_cons. cbn [dedup_ci]. rewrite toLowerCase_idem.
  destruct (decide (toLowerCase w ∈ seen)); [apply IH|].
  by rewrite fmap_cons, IH.
Qed.

Lemma replacement_words_lower t :
  toLowerCase <$> replacement_words (toLowerCase t) = toLowerCase <$> replacement_words t.
Proof.
  unfold replacement_words. rewrite toLowerCase_idem.
  destruct (SYNONYMS !! toLowerCase t); [done|]. cbn. by rewrite toLowerCase_idem.
Qed.

Lemma bind_replacement_words_lower terms :
  toLowerCase <$> ((toLowerCase <$> terms) ≫= replacement_words)
  = toLowerCase <$> (terms ≫= replacement_words).
Proof.
  induction terms as [|t ts IH]; [done|].
  by rewrite fmap_cons, !bind_cons, !fmap_app, IH, replacement_words_lower.
Qed.

(** X12: up to the case of letters, the expansion depends on the terms only
    up to the case of their letters. *)
Theorem expandSynonyms_case (terms terms' : list string) :
  toLowerCase <$> terms = toLowerCase <$> terms' →
  toLowerCase <$> expandSynonyms terms = toLowerCase <$> expandSynonyms terms'.
Proof.
  intros Heq. rewrite !expandSynonyms_dedup_ci, !dedup_ci_lower.
  by rewrite <-(bind_replacement_words_lower terms),
    <-(bind_replacement_words_lower terms'), Heq.
Qed.

Lemma expandSynonyms_case_witness :
  toLowerCase <$> expandSynonyms ["ECG"; "Patch"]
  = toLowerCase <$> expandSynonyms ["ecg"; "patch"].
Proof. apply expandSynonyms_case. reflexivity. Defined.

(** ** The search tools *)

Lemma validateProductCode_None v :
  validateProductCode v = None ↔ PRODUCT_CODE_RE v = true.
Proof.
  unfold validateProductCode.
  pose proof (K_NUMBER_RE_length v) as HK.
  pose proof (PMA_NUMBER_RE_length v) as HP.
  pose proof (PRODUCT_CODE_RE_length v) as HC.
  destruct (K_NUMBER_RE v), (PMA_NUMBER_RE v), (PRODUCT_CODE_RE v); cbn [negb];
    try specialize (HK eq_refl); try specialize (HP eq_refl);
    try specialize (HC eq_refl); split; try done; lia.
Qed.










Lemma DATE_RE_not_empty d : DATE_RE d = true → d ≠ "".
Proof. by intros H ->. Qed.




(** ** Product codes up to case *)

Lemma is_letter_upper c : is_letter (upper_ascii c) = is_letter c.
Proof. by destruct c as [[] [] [] [] [] [] [] []]. Qed.

Lemma is_digit_upper c : is_digit (upper_ascii c) = is_digit c.
Proof. by destruct c as [[] [] [] [] [] [] [] []]. Qed.

Lemma lower_upper_ascii c : lower_ascii (upper_ascii c) = lower_ascii c.
Proof. by destruct c as [[] [] [] [] [] [] [] []]. Qed.

Lemma upper_ascii_idem c : upper_ascii (upper_ascii c) = upper_ascii c.
Proof. by destruct c as [[] [] [] [] [] [] [] []]. Qed.

Lemma toUpperCase_idem s : toUpperCase (toUpperCase s) = toUpperCase s.
Proof.
  unfold toUpperCase. induction s as [|c s IH]; [done|]. cbn [map_string].
  by rewrite upper_ascii_idem, IH.
Qed.

Lemma length_map_string f s : String.length (map_string f s) = String.length s.
Proof. induction s as [|c s IH]; [done|]. cbn. by rewrite IH. Qed.

Lemma all_chars_map_string p f s :
  (∀ c, p (f c) = p c) → all_chars p (map_string f s) = all_chars p s.
Proof.
  intros Hp. induction s as [|c s IH]; [done|]. cbn. by rewrite Hp, IH.
Qed.

Lemma PRODUCT_CODE_RE_upper v : PRODUCT_CODE_RE (toUpperCase v) = PRODUCT_CODE_RE v.
Proof.
  unfold PRODUCT_CODE_RE, toUpperCase.
  by rewrite length_map_string, (all_chars_map_string _ _ _ is_letter_upper).
Qed.

Lemma K_NUMBER_RE_upper v : K_NUMBER_RE (toUpperCase v) = K_NUMBER_RE v.
Proof.
  destruct v as [|c d]; [done|]. unfold toUpperCase. cbn [map_string K_NUMBER_RE].
  by rewrite lower_upper_ascii, length_map_string,
    (all_chars_map_string _ _ _ is_digit_upper).
Qed.

Lemma PMA_NUMBER_RE_upper v : PMA_NUMBER_RE (toUpperCase v) = PMA_NUMBER_RE v.
Proof.
  destruct v as [|c d]; [done|]. unfold toUpperCase. cbn [map_string PMA_NUMBER_RE].
  by rewrite lower_upper_ascii, length_map_string,
    (all_chars_map_string _ _ _ is_digit_upper).
Qed.

Lemma validateProductCode_upper v :
  validateProductCode (toUpperCase v) = validateProductCode v.
Proof.
  unfold validateProductCode.
  by rewrite K_NUMBER_RE_upper, PMA_NUMBER_RE_upper, PRODUCT_CODE_RE_upper.
Qed.

Lemma truthy_valid_code v : validateProductCode v = None → truthy (Some v) = true.
Proof. intros H%validateProductCode_None. by destruct v. Qed.

Lemma validateProductCode_case pc pc' :
  toUpperCase pc = toUpperCase pc' →
  validateProductCode pc' = validateProductCode pc.
Proof.
  intros same.
  by rewrite <-(validateProductCode_upper pc'), <-same, validateProductCode_upper.
Qed.

Lemma truthy_case pc pc' :
  toUpperCase pc = toUpperCase pc' → validateProductCode pc = None →
  truthy (Some pc') = truthy (Some pc).
Proof.
  intros same valid. rewrite !truthy_valid_code; [done..|].
  by rewrite (validateProductCode_case pc pc').
Qed.

Lemma checkProductCode_case pc pc' :
  toUpperCase pc = toUpperCase pc' → validateProductCode pc = None →
  checkProductCode (Some pc') = checkProductCode (Some pc).
Proof.
  intros same valid. unfold checkProductCode.
  by rewrite (truthy_case pc pc'), (validateProductCode_case pc pc'), valid.
Qed.

Lemma part_if_case pc pc' pre :
  toUpperCase pc = toUpperCase pc' → validateProductCode pc = None →
  part_if (Some pc') (λ v, pre +:+ toUpperCase v)
  = part_if (Some pc) (λ v, pre +:+ toUpperCase v).
Proof.
  intros same valid. unfold part_if. by rewrite (truthy_case pc pc'), same.
Qed.

(** X18: a product code is read without regard to the case of its letters:
    [validateProductCode] gives the same verdict for two spellings, and for a
    valid code the lookup of [classify_device] and the four search tools do
    the same with either spelling. *)
Theorem product_code_case {World : Type}
    (queryOpenFDA : World → Request → OpenFDAResponse * World) (today : string)
    (pc pc' : string) :
  toUpperCase pc = toUpperCase pc' →
  validateProductCode pc' = validateProductCode pc
  ∧ (validateProductCode pc = None →
     (∀ device_class lim o,
        direct_lookup queryOpenFDA pc' device_class lim o
        = direct_lookup queryOpenFDA pc device_class lim o)
     ∧ (∀ k a d dec ct ac df dt lim w,
        search_510k queryOpenFDA today (Some pc') k a d dec ct ac df dt lim w
        = search_510k queryOpenFDA today (Some pc) k a d dec ct ac df dt lim w)
     ∧ (∀ p a t ac df dt lim w,
        search_pma queryOpenFDA today (Some pc') p a t ac df dt lim w
        = search_pma queryOpenFDA today (Some pc) p a t ac df dt lim w)
     ∧ (∀ f s df dt lim w,
        search_recalls queryOpenFDA today (Some pc') f s df dt lim w
        = search_recalls queryOpenFDA today (Some pc) f s df dt lim w)
     ∧ (∀ b m e r df dt lim w,
        search_adverse_events queryOpenFDA today (Some pc') b m e r df dt lim w
        = search_adverse_events queryOpenFDA today (Some pc) b m e r df dt lim w)).
Proof.
  intros Hsame. split; [by apply validateProductCode_case|]. intros Hvalid.
  pose proof (truthy_case pc pc' Hsame Hvalid) as Ht.
  pose proof (checkProductCode_case pc pc' Hsame Hvalid) as Hc.
  assert (∀ pre, part_if (Some pc') (λ v, pre +:+ toUpperCase v)
                 = part_if (Some pc) (λ v, pre +:+ toUpperCase v)) as Hp
    by (intros; by apply part_if_case).
  split_and!; intros.
  - unfold direct_lookup. by rewrite (validateProductCode_case pc pc'), Hvalid, Hsame.
  - unfold search_510k. by rewrite Ht, Hc, Hp.
  - unfold search_pma. by rewrite Ht, Hc, Hp.
  - unfold search_recalls. by rewrite Ht, Hc, Hp.
  - unfold search_adverse_events. by rewrite Ht, Hc, Hp.
Qed.

Lemma product_code_case_witness :
  validateProductCode "dxn" = validateProductCode "DXN".
Proof. apply (product_code_case small_service "2026-11-03" "DXN" "dxn"). reflexivity. Defined.

(** ** The two entries of [classify_device] *)

Lemma direct_lookup_calls {World : Type}
    (queryOpenFDA : World → Request → OpenFDAResponse * World)
    (pc : string) (device_class : option string) (lim : nat) (o : IO World) :
  let out := direct_lookup queryOpenFDA pc device_class lim o in
  let url := {| endpoint := "classification";
                searchParts := ("product_code:" +:+ toUpperCase pc)
                                 :: class_part device_class;
                limit := lim; sort := None |} in
  match validateProductCode pc with
  | Some problem => out = (ValidationError pc problem, o)
  | None =>
      calls out.2 = calls o ++ [(url, (queryOpenFDA (world o) url).1)]
      ∧ (out.1 = ErrorText (queryOpenFDA (world o) url).1 url
         ∨ out.1 = ClassificationResults (queryOpenFDA (world o) url).1 url
         ∨ out.1 = NoClassificationFor (toUpperCase pc) url)
  end.
Proof.
  cbv zeta. unfold direct_lookup. destruct (validateProductCode pc); [done|].
  rewrite call_spec. cbv zeta.
  destruct (error _); [by split; [|left]|].
  destruct (results _) as [[|]|]; split; auto.
Qed.

(** X19: when a product code is given, [classify_device] never reads the
    query: an invalid code is refused without a call, and a valid one costs
    exactly one call, the lookup of the code in upper case, whose response
    decides among the error text, the classification and the
    nothing-found text. *)
Theorem classify_device_product_code {World : Type}
    (queryOpenFDA : World → Request → OpenFDAResponse * World)
    (pc : string) (query device_class : option string) (lim : option nat) (w : World) :
  truthy (Some pc) = true →
  let out := classify_device queryOpenFDA (Some pc) query device_class lim w in
  let url := {| endpoint := "classification";
                searchParts := ("product_code:" +:+ toUpperCase pc)
                                 :: class_part device_class;
                limit := default 10 lim; sort := None |} in
  out = classify_device queryOpenFDA (Some pc) None device_class lim w
  ∧ match validateProductCode pc with
    | Some problem => out.1 = ValidationError pc problem ∧ calls out.2 = []
    | None =>
        calls out.2 = [(url, (queryOpenFDA w url).1)]
        ∧ (out.1 = ErrorText (queryOpenFDA w url).1 url
           ∨ out.1 = ClassificationResults (queryOpenFDA w url).1 url
           ∨ out.1 = NoClassificationFor (toUpperCase pc) url)
    end.
Proof.
  intros Hpc. cbv zeta. unfold classify_device. rewrite Hpc.
  cbn [negb andb]. rewrite Hpc. split; [done|].
  pose proof (direct_lookup_calls queryOpenFDA pc device_class (default 10 lim)
                {| world := w; calls := [] |}) as H.
  cbv zeta in H. cbn [default id] in *.
  destruct (validateProductCode pc); [by rewrite H|]. exact H.
Qed.

Lemma classify_device_product_code_witness :
  classify_device small_service (Some "dxn") (Some "blood pressure") None None tt
  = classify_device small_service (Some "dxn") None None None tt.
Proof.
  destruct (classify_device_product_code small_service "dxn" (Some "blood pressure")
              None None tt eq_refl) as [H _].
  exact H.
Defined.

(** X20: a query that is three letters after trimming is never searched as
    text: without a product code, [classify_device] treats it as the product
    code in upper case, so it costs the one lookup of that code and no
    synonym of it is ever tried. *)
Theorem classify_device_three_letters {World : Type}
    (queryOpenFDA : World → Request → OpenFDAResponse * World)
    (product_code device_class : option string) (query : string)
    (lim : option nat) (w : World) :
  truthy product_code = false →
  PRODUCT_CODE_RE (trim query) = true →
  let out := classify_device queryOpenFDA product_code (Some query) device_class lim w in
  let code := toUpperCase (trim query) in
  let url := {| endpoint := "classification";
                searchParts := ("product_code:" +:+ code) :: class_part device_class;
                limit := default 10 lim; sort := None |} in
  out = classify_device queryOpenFDA (Some code) None device_class lim w
  ∧ calls out.2 = [(url, (queryOpenFDA w url).1)]
  ∧ (out.1 = ErrorText (queryOpenFDA w url).1 url
     ∨ out.1 = ClassificationResults (queryOpenFDA w url).1 url
     ∨ out.1 = NoClassificationFor code url).
Proof.
  intros Hpc Hre. cbv zeta.
  assert (truthy (Some query) = true) as Hq.
  { cbn. destruct (String.eqb_spec query "") as [->|]; [|done]. discriminate Hre. }
  assert (PRODUCT_CODE_RE (toUpperCase (trim query)) = true) as Hre'
    by by rewrite PRODUCT_CODE_RE_upper.
  assert (truthy (Some (toUpperCase (trim query))) = true) as Hcode.
  { by destruct (toUpperCase (trim query)). }
  assert (classify_device queryOpenFDA product_code (Some query) device_class lim w
          = classify_device queryOpenFDA (Some (toUpperCase (trim query))) None
              device_class lim w) as Heq.
  { unfold classify_device. rewrite Hpc, Hq. change (truthy None) with false.
    rewrite Hcode. cbn [negb andb from_option id]. rewrite Hre, ?Hcode.
    cbn [negb andb from_option id]. by rewrite ?Hcode. }
  split; [done|]. rewrite Heq.
  unfold classify_device. change (truthy None) with false. rewrite Hcode.
  cbn [negb andb from_option id]. rewrite ?Hcode.
  pose proof (direct_lookup_calls queryOpenFDA (toUpperCase (trim query)) device_class
                (default 10 lim) {| world := w; calls := [] |}) as H.
  cbv zeta in H.
  rewrite (proj2 (validateProductCode_None _) Hre'), toUpperCase_idem in H.
  exact H.
Qed.

Lemma classify_device_three_letters_witness :
  classify_device small_service None (Some " ecg ") None None tt
  = classify_device small_service (Some "ECG") None None None tt.
Proof.
  destruct (classify_device_three_letters small_service None None " ecg " None tt
              eq_refl eq_refl) as [H _].
  exact H.
Defined.

(** ** What an answer of [classify_device] rests on *)

Lemma usable_results_nonempty data rs : usable_results data = Some rs → rs ≠ [].
Proof.
  unfold usable_results. destruct (error data); [done|].
  destruct (results data) as [[|]|]; [done| |done]. by intros [= <-].
Qed.

Lemma nothing_classified_app l1 l2 :
  nothing_classified l1 → nothing_classified l2 → nothing_classified (l1 ++ l2).
Proof. intros H1 H2 e [?|?]%elem_of_app; auto. Qed.

Lemma nothing_classified_cons e l :
  (is_classification e.1 = true → usable_results e.2 = None) →
  nothing_classified l → nothing_classified (e :: l).
Proof. intros He Hl e' [->|?]%elem_of_cons; auto. Qed.

Lemma classified_mono l1 l2 l3 r : classified l2 r → classified (l1 ++ l2 ++ l3) r.
Proof.
  intros (e & rs & He & ?). exists e, rs. split; [|done].
  apply elem_of_app. right. apply elem_of_app. by left.
Qed.

Section BridgeSound.
Context {World : Type}.
Variable queryOpenFDA : World → Request → OpenFDAResponse * World.
Variable device_class : option string.
Variable originalTerms : list string.

Lemma lookup_codes_sound pcs : ∀ acc o,
  let out := lookup_codes queryOpenFDA device_class pcs acc o in
  ∃ extra,
    calls out.2 = calls o ++ extra
    ∧ (∀ r, r ∈ out.1.1 → r ∈ acc.1 ∨ classified extra r)
    ∧ (out.1.1 = [] → nothing_classified extra)
    ∧ (acc.1 ≠ [] → out.1.1 ≠ []).
Proof.
  induction pcs as [|pc pcs IH]; intros acc o; cbv zeta; cbn [lookup_codes].
  { exists []. rewrite app_nil_r. split_and!; [done|by left| |done].
    by intros _ e ?%elem_of_nil. }
  rewrite call_spec.
  set (req := lookup_request device_class pc).
  set (data := (queryOpenFDA (world o) req).1).
  set (o1 := {| world := _; calls := _ |}).
  destruct (usable_results data) as [rs|] eqn:Hrs.
  - destruct (IH (acc.1 ++ rs, acc.2 ++ [req]) o1) as (extra & Hcalls & Hfound & _ & Hne).
    cbn [fst] in *.
    assert (acc.1 ++ rs ≠ []) as Hrs'.
    { apply usable_results_nonempty in Hrs. by destruct acc.1, rs. }
    exists ((req, data) :: extra). split_and!.
    + rewrite Hcalls. unfold o1. cbn [calls]. by rewrite <-app_assoc.
    + intros r [[Hr|Hr]%elem_of_app|(e & rs' & He & ?)]%Hfound.
      * by left.
      * right. exists (req, data), rs. split_and!; [left|done..].
      * right. exists e, rs'. split; [by right|done].
    + intros Hnil. by destruct (Hne Hrs').
    + intros _. by apply Hne.
  - destruct (IH acc o1) as (extra & Hcalls & Hfound & Hnone & Hne).
    exists ((req, data) :: extra). split_and!.
    + rewrite Hcalls. unfold o1. cbn [calls]. by rewrite <-app_assoc.
    + intros r [Hr|(e & rs' & He & ?)]%Hfound; [by left|].
      right. exists e, rs'. split; [by right|done].
    + intros Hnil. apply nothing_classified_cons; [done|by apply Hnone].
    + done.
Qed.

Lemma bridge_combos_sound query cs : ∀ st,
  match bridge_combos queryOpenFDA device_class query cs st with
  | Returned r o' => r ≠ MissingArguments ∧ justified r o'
  | Running st' =>
      ∃ extra, calls st'.2 = calls st.2 ++ extra ∧ nothing_classified extra
  end.
Proof.
  induction cs as [|combo cs IH]; intros [seen o]; cbn [bridge_combos fst snd].
  { exists []. rewrite app_nil_r. split; [done|]. by intros e ?%elem_of_nil. }
  destruct (decide (join "+" combo ∈ seen)); [apply IH|].
  rewrite call_spec.
  set (req := bridge_request combo).
  set (data := (queryOpenFDA (world o) req).1).
  set (o1 := {| world := _; calls := _ |}).
  set (seen' := {[join "+" combo]} ∪ seen).
  assert (∀ o2 extra, calls o2 = calls o1 ++ extra → nothing_classified extra →
    match bridge_combos queryOpenFDA device_class query cs (seen', o2) with
    | Returned r o' => r ≠ MissingArguments ∧ justified r o'
    | Running st' =>
        ∃ extra, calls st'.2 = calls o ++ extra ∧ nothing_classified extra
    end) as Hnext.
  { intros o2 extra Hcalls Hextra. specialize (IH (seen', o2)).
    destruct (bridge_combos _ _ _ cs (seen', o2)) as [r o'|st']; [done|].
    destruct IH as (extra' & Hcalls' & Hextra'). cbn [snd] in Hcalls'.
    exists ((req, data) :: extra ++ extra'). split.
    - rewrite Hcalls', Hcalls. unfold o1. cbn [calls]. by rewrite <-!app_assoc.
    - apply nothing_classified_cons; [done|]. by apply nothing_classified_app. }
  assert (nothing_classified []) as Hnil by (by intros e ?%elem_of_nil).
  destruct (usable_results data) as [rs|] eqn:Hrs;
    [|by apply (Hnext o1 []); [rewrite app_nil_r|]].
  destruct (length (collect_codes rs) =? 0);
    [by apply (Hnext o1 []); [rewrite app_nil_r|]|].
  destruct (lookup_codes_sound (collect_codes rs).*1 ([], []) o1)
    as (extra & Hcalls & Hfound & Hnone & _).
  destruct (lookup_codes _ _ _ _ o1) as [[found urls] o2]. cbn [fst snd] in *.
  destruct (Nat.eqb_spec (length found) 0) as [H0|H0].
  { apply length_zero_iff_nil in H0. apply (Hnext o2 extra); auto. }
  split; [done|]. cbn [justified classificationResults bridge_data productCodes].
  split_and!.
  - by intros ->.
  - apply Forall_forall. intros r [Hr|Hr]%Hfound; [by apply elem_of_nil in Hr|].
    rewrite Hcalls. apply (classified_mono (calls o1) extra []) in Hr.
    by rewrite app_nil_r in Hr.
  - exists req, rs. split_and!; [|done..]. rewrite Hcalls. unfold o1. cbn [calls].
    apply elem_of_app. left. apply elem_of_app. right. left.
Qed.

Lemma bridge_termSets_sound query tsets : ∀ st,
  match bridge_termSets queryOpenFDA device_class query tsets st with
  | Returned r o' => r ≠ MissingArguments ∧ justified r o'
  | Running st' =>
      ∃ extra, calls st'.2 = calls st.2 ++ extra ∧ nothing_classified extra
  end.
Proof.
  induction tsets as [|terms tsets IH]; intros st; cbn [bridge_termSets].
  { exists []. rewrite app_nil_r. split; [done|]. by intros e ?%elem_of_nil. }
  pose proof (bridge_combos_sound query (topCombos terms) st) as Hc.
  destruct (bridge_combos _ _ _ _ st) as [r o'|st1]; [done|].
  destruct Hc as (extra1 & Hcalls1 & Hextra1). specialize (IH st1).
  destruct (bridge_termSets _ _ _ tsets st1) as [r o'|st2]; [done|].
  destruct IH as (extra2 & Hcalls2 & Hextra2). exists (extra1 ++ extra2). split.
  - by rewrite Hcalls2, Hcalls1, <-app_assoc.
  - by apply nothing_classified_app.
Qed.

Lemma bridgeVia510k_sound query expandedTerms o :
  match bridgeVia510k queryOpenFDA device_class originalTerms query expandedTerms o with
  | (Some r, o') => r ≠ MissingArguments ∧ justified r o'
  | (None, o') => ∃ extra, calls o' = calls o ++ extra ∧ nothing_classified extra
  end.
Proof.
  unfold bridgeVia510k.
  pose proof (bridge_termSets_sound query [expandedTerms; originalTerms] (∅, o)) as H.
  by destruct (bridge_termSets _ _ _ _ _).
Qed.
End BridgeSound.

Section SearchSound.
Context {World : Type}.
Variable queryOpenFDA : World → Request → OpenFDAResponse * World.
Variable device_class : option string.
Variable resultLimit : nat.
Variable originalTerms : list string.

(** Every call of the broadening loop goes to the classification collection. *)
Lemma termSets_loop_classification tsets s :
  Forall (λ e, is_classification e.1 = true) (calls (io s)) →
  Forall (λ e, is_classification e.1 = true)
    (calls (flow_io (termSets_loop queryOpenFDA device_class resultLimit
                       originalTerms tsets s))).
Proof.
  intros Hs.
  pose proof (termSets_loop_invariant queryOpenFDA device_class resultLimit originalTerms
    (λ s, Forall (λ e, is_classification e.1 = true) (calls (io s)))
    (λ _ o, Forall (λ e, is_classification e.1 = true) (calls o))
    (λ _ _ _, True)) as Hinv.
  assert (flow_post
    (λ s, Forall (λ e, is_classification e.1 = true) (calls (io s)))
    (λ _ o, Forall (λ e, is_classification e.1 = true) (calls o))
    (termSets_loop queryOpenFDA device_class resultLimit originalTerms tsets s)) as H.
  { apply Hinv; [|done|done]. intros tu combo field s' _ Hs' _.
    pose proof (try_field_calls queryOpenFDA device_class resultLimit originalTerms
                  tu combo field s') as Hcalls.
    destruct (try_field _ _ _ _ _ _ _ s') as [r o|s'']; cbn [flow_post flow_io] in *;
      destruct Hcalls as [Hcalls _]; rewrite Hcalls; (apply Forall_app; split; [done|]); by repeat constructor. }
  by destruct (termSets_loop _ _ _ _ _ s).
Qed.
End SearchSound.

Lemma query_search_justified {World : Type}
    (queryOpenFDA : World → Request → OpenFDAResponse * World)
    (query : string) (device_class : option string) (resultLimit : nat) (w : World) :
  let out := query_search queryOpenFDA query device_class resultLimit
               {| world := w; calls := [] |} in
  out.1 ≠ MissingArguments ∧ justified out.1 out.2.
Proof.
  cbv zeta. unfold query_search.
  set (originalTerms := split_ws (trim query)). fold (fresh w).
  pose proof (termSets_loop_weak_invariant queryOpenFDA device_class resultLimit
                originalTerms (termSets originalTerms) (fresh w)) as Hweak.
  pose proof (termSets_loop_classification queryOpenFDA device_class resultLimit
                originalTerms (termSets originalTerms) (fresh w)) as Hclass.
  destruct (termSets_loop _ _ _ _ _ (fresh w)) as [r o|s];
    cbn [flow_post flow_io fst snd] in *.
  - destruct Hweak as (url & data & rs & terms & combo & field & log & -> & Hcalls
                       & Hrs & _ & _ & _ & -> & _).
    { split; [by intros ? ? ?%elem_of_nil|]. by intros ? ?%elem_of_nil. }
    split; [done|]. cbn [justified]. split_and!; [|done|by rewrite Hrs].
    rewrite Hcalls. apply elem_of_app. right. left.
  - destruct Hweak as [_ Hbest].
    { split; [by intros ? ? ?%elem_of_nil|]. by intros ? ?%elem_of_nil. }
    specialize (Hclass ltac:(constructor)).
    destruct (bestWeak s) as [b|].
    + destruct Hbest as (l1 & l2 & Hlog & (rs & Hrs & _) & _).
      cbn [fst snd justified] in *. split; [done|].
      assert ((weak_url b, weak_data b) ∈ calls (io s)) as Hin.
      { rewrite Hlog. apply elem_of_app. right. left. }
      split_and!; [done| |by rewrite Hrs].
      by apply (proj1 (Forall_forall _ _) Hclass (weak_url b, weak_data b)).
    + pose proof (bridgeVia510k_sound queryOpenFDA device_class originalTerms query
                    (expandSynonyms originalTerms) (io s)) as Hbridge.
      destruct (bridgeVia510k _ _ _ _ _ (io s)) as [[r|] o']; [done|].
      destruct Hbridge as (extra & Hcalls & Hextra). cbn [fst snd justified].
      split; [done|]. rewrite Hcalls. apply nothing_classified_app; [|done].
      intros e He _. by apply Hbest.
Qed.

Lemma direct_lookup_justified {World : Type}
    (queryOpenFDA : World → Request → OpenFDAResponse * World)
    (pc : string) (device_class : option string) (lim : nat) (w : World) :
  let out := direct_lookup queryOpenFDA pc device_class lim {| world := w; calls := [] |} in
  out.1 ≠ MissingArguments ∧ justified out.1 out.2.
Proof.
  cbv zeta. unfold direct_lookup.
  destruct (validateProductCode pc) eqn:Hv; [done|].
  rewrite call_spec. cbn [world calls app]. cbv zeta.
  set (url := {| endpoint := "classification" |}).
  set (data := (queryOpenFDA w url).1).
  destruct (error data) eqn:He; cbn [fst snd justified].
  { split; [done|]. split; [done|]. by rewrite He. }
  destruct (results data) as [[|r rs]|] eqn:Hr; cbn [fst snd justified].
  - split; [done|]. exists data. split_and!; [done..|].
    unfold usable_results. by rewrite He, Hr.
  - split; [done|]. split_and!; [left|done|].
    unfold usable_results. by rewrite He, Hr.
  - split; [done|]. exists data. split_and!; [done..|].
    unfold usable_results. by rewrite He, Hr.
Qed.

(** X21: every answer of [classify_device] rests on the calls it made.  The
    request for arguments is given exactly when neither argument is given,
    and it and a validation error are given without a call; an error text
    and the nothing-found text of a code lookup rest on the one call made; a
    classification shown is the response, with results, of a call that was
    made to the classification collection; a bridge report lists records
    returned by classification lookups that were made, through the product
    codes of a 510(k) response that was received; and the text search
    answers that nothing was found only when no call to the classification
    collection brought a result. *)
Theorem classify_device_justified {World : Type}
    (queryOpenFDA : World → Request → OpenFDAResponse * World)
    (product_code query device_class : option string) (lim : option nat) (w : World) :
  let out := classify_device queryOpenFDA product_code query device_class lim w in
  justified out.1 out.2
  ∧ (out.1 = MissingArguments ↔ truthy product_code = false ∧ truthy query = false).
Proof.
  cbv zeta. unfold classify_device.
  destruct (truthy product_code) eqn:Hpc; cbn [negb andb].
  { rewrite Hpc.
    destruct (direct_lookup_justified queryOpenFDA (default "" product_code)
                device_class (default 10 lim) w) as [Hne Hj].
    split; [done|]. split; [done|]. by intros [? _]. }
  destruct (truthy query) eqn:Hq; cbn [negb andb]; [|done].
  destruct (PRODUCT_CODE_RE (trim (default "" query))) eqn:Hre.
  - assert (truthy (Some (toUpperCase (trim (default "" query)))) = true) as ->.
    { rewrite <-PRODUCT_CODE_RE_upper in Hre.
      by destruct (toUpperCase (trim (default "" query))). }
    destruct (direct_lookup_justified queryOpenFDA
                (default "" (Some (toUpperCase (trim (default "" query)))))
                device_class (default 10 lim) w) as [Hne Hj].
    split; [done|]. split; [done|]. by intros [_ ?].
  - rewrite Hpc.
    destruct (query_search_justified queryOpenFDA (default "" query) device_class
                (default 10 lim) w) as [Hne Hj].
    split; [done|]. split; [done|]. by intros [_ ?].
Qed.

(** ** The product codes of a 510(k) response *)

Lemma elem_of_codes_update m pc f k v' :
  NoDup m.*1 →
  (k, v') ∈ codes_update m pc f
  ↔ (k ≠ pc ∧ (k, v') ∈ m) ∨ (k = pc ∧ ∃ v, (pc, v) ∈ m ∧ v' = f v).
Proof.
  induction m as [|[k0 v0] m IH]; intros Hnd; cbn [codes_update].
  { split; [by intros ?%elem_of_nil|].
    by intros [[_ ?%elem_of_nil]|(_ & v & ?%elem_of_nil & _)]. }
  rewrite fmap_cons in Hnd. apply NoDup_cons in Hnd as [Hk0 Hnd]. cbn [fst] in Hk0.
  assert (∀ v, (k0, v) ∈ m → False) as Hfresh.
  { intros v Hv. apply Hk0, list_elem_of_fmap. by exists (k0, v). }
  destruct (String.eqb_spec k0 pc) as [->|Hne].
  - rewrite !elem_of_cons. split.
    + intros [[= -> ->]|Hin].
      * right. split; [done|]. exists v0. split; [by left|done].
      * left. split; [|by right]. intros ->. by apply (Hfresh v').
    + intros [[Hk [[= ? ?]|Hin]]|(-> & v & Hv & ->)]; [done|by right|].
      apply elem_of_cons in Hv as [[= ->]|Hv]; [by left|]. by destruct (Hfresh v).
  - rewrite !elem_of_cons, (IH Hnd). split.
    + intros [[= -> ->]|[[? ?]|(-> & v & Hv & ->)]].
      * left. split; [done|by left].
      * left. split; [done|by right].
      * right. split; [done|]. exists v. split; [|done]. rewrite elem_of_cons. by right.
    + intros [[Hk [[= -> ->]|Hin]]|(-> & v & Hv & ->)].
      * by left.
      * right. left. done.
      * apply elem_of_cons in Hv as [[= ? ?]|Hv]; [done|].
        right. right. split; [done|]. by exists v.
Qed.

Lemma codes_get_elem m pc :
  match codes_get m pc with
  | Some v => (pc, v) ∈ m
  | None => pc ∉ m.*1
  end.
Proof.
  induction m as [|[k v] m IH]; cbn [codes_get]; [by intros ?%elem_of_nil|].
  destruct (String.eqb_spec k pc) as [->|Hne]; [left|].
  destruct (codes_get m pc); [by right|].
  rewrite fmap_cons. by intros [?|?]%elem_of_cons.
Qed.

Lemma add_code_record_code m r :
  record_code r = None → add_code m r = m.
Proof.
  unfold add_code, record_code.
  destruct (toUpperCase <$> r !! "product_code") as [pc|]; [|done].
  destruct (PRODUCT_CODE_RE pc); [done|]. by rewrite orb_true_r.
Qed.

Lemma records_of_snoc pc rs r :
  records_of pc (rs ++ [r])
  = records_of pc rs ++ (if bool_decide (record_code r = Some pc) then [r] else []).
Proof. unfold records_of. rewrite List.filter_app. done. Qed.

Lemma entry_of_other rs r pc info :
  record_code r ≠ Some pc → entry_of rs pc info → entry_of (rs ++ [r]) pc info.
Proof.
  intros Hr (Hcode & Hcount & H1 & Hnd & Hnames). unfold entry_of.
  rewrite records_of_snoc, bool_decide_eq_false_2, app_nil_r by done. done.
Qed.

Lemma add_code_known m r pc existing :
  record_code r = Some pc → codes_get m pc = Some existing →
  add_code m r
  = codes_update m pc (λ existing,
      {| code := code existing;
         deviceNames :=
           match r !! "device_name" with
           | Some name =>
               if truthy (Some name) && negb (bool_decide (name ∈ deviceNames existing))
               then deviceNames existing ++ [name] else deviceNames existing
           | None => deviceNames existing
           end;
         count := S (count existing) |}).
Proof.
  unfold add_code, record_code.
  destruct (toUpperCase <$> r !! "product_code") as [pc1|]; [|done].
  destruct (PRODUCT_CODE_RE pc1) eqn:Hre; [|done]. intros [= ->] Hget.
  assert (truthy (Some pc) = true) as -> by (by destruct pc).
  cbn [negb orb]. by rewrite Hget.
Qed.

Lemma add_code_new m r pc :
  record_code r = Some pc → codes_get m pc = None →
  add_code m r
  = m ++ [(pc, {| code := pc;
                  deviceNames :=
                    match r !! "device_name" with
                    | Some name => if truthy (Some name) then [name] else []
                    | None => []
                    end;
                  count := 1 |})].
Proof.
  unfold add_code, record_code.
  destruct (toUpperCase <$> r !! "product_code") as [pc1|]; [|done].
  destruct (PRODUCT_CODE_RE pc1) eqn:Hre; [|done]. intros [= ->] Hget.
  assert (truthy (Some pc) = true) as -> by (by destruct pc).
  cbn [negb orb]. by rewrite Hget.
Qed.

Lemma truthy_not_empty name : truthy (Some name) = true → name ≠ "".
Proof. cbn. by destruct (String.eqb_spec name ""). Qed.

Lemma add_code_entries m rs r :
  NoDup m.*1 →
  (∀ r' pc, r' ∈ rs → record_code r' = Some pc → pc ∈ m.*1) →
  (∀ pc info, (pc, info) ∈ m → entry_of rs pc info) →
  ∀ pc info, (pc, info) ∈ add_code m r → entry_of (rs ++ [r]) pc info.
Proof.
  intros Hnd Hkeys Hm pc info.
  destruct (record_code r) as [pc0|] eqn:Hr.
  2:{ rewrite add_code_record_code by done. intros Hin.
      apply entry_of_other; [congruence|by apply Hm]. }
  pose proof (codes_get_elem m pc0) as Hget.
  destruct (codes_get m pc0) as [existing|] eqn:Hg.
  - rewrite (add_code_known m r pc0 existing) by done.
    rewrite elem_of_codes_update by done.
    intros [[Hne Hin]|(-> & v & Hv & ->)].
    { apply entry_of_other; [congruence|by apply Hm]. }
    destruct (Hm pc0 v Hv) as (Hcode & Hcount & H1 & Hnames & Horigin).
    unfold entry_of. cbn [code count deviceNames].
    rewrite records_of_snoc, bool_decide_eq_true_2, length_app by done.
    cbn [length]. split_and!; [done|lia|lia|..].
    + destruct (r !! "device_name") as [name|]; [|done].
      destruct (truthy (Some name)); [|done]. cbn [andb].
      destruct (bool_decide_reflect (name ∈ deviceNames v)); [done|]. cbn [negb].
      apply NoDup_app. split_and!; [done| |apply NoDup_singleton].
      by intros x Hx ->%list_elem_of_singleton.
    + assert (∀ name, name ∈ deviceNames v →
        name ≠ "" ∧ ∃ r0, r0 ∈ records_of pc0 rs ++ [r]
                          ∧ r0 !! "device_name" = Some name) as Hold.
      { intros name (? & r0 & ? & ?)%Horigin. split; [done|]. exists r0.
        split; [|done]. apply elem_of_app. by left. }
      destruct (r !! "device_name") as [name|] eqn:Hname; [|done].
      destruct (truthy (Some name)) eqn:Ht; [|done]. cbn [andb].
      destruct (bool_decide_reflect (name ∈ deviceNames v)); [done|]. cbn [negb].
      intros name' [?| ->%list_elem_of_singleton]%elem_of_app; [by apply Hold|].
      split; [by apply truthy_not_empty|]. exists r. split; [|done].
      apply elem_of_app. right. left.
  - rewrite (add_code_new m r pc0) by done.
    intros [Hin|[= -> ->]%list_elem_of_singleton]%elem_of_app.
    { apply entry_of_other; [|by apply Hm]. intros Heq.
      assert (pc = pc0) as -> by congruence.
      apply Hget, list_elem_of_fmap. by exists (pc0, info). }
    assert (records_of pc0 rs = []) as Hnone.
    { unfold records_of. destruct (List.filter _ rs) as [|r0 l] eqn:Hf; [done|].
      assert (r0 ∈ List.filter (λ r, bool_decide (record_code r = Some pc0)) rs)
        as [Hr0 Hc%bool_decide_eq_true]%elem_of_list_filter by (rewrite Hf; left).
      by destruct (Hget (Hkeys r0 pc0 Hr0 Hc)). }
    unfold entry_of. cbn [code count deviceNames].
    rewrite records_of_snoc, bool_decide_eq_true_2, Hnone by done.
    split_and!; [done..| |].
    + destruct (r !! "device_name") as [name|]; [|apply NoDup_nil_2].
      change (negb (name =? "")%string) with (truthy (Some name)).
      destruct (truthy (Some name)); [apply NoDup_singleton|apply NoDup_nil_2].
    + destruct (r !! "device_name") as [name|] eqn:Hname;
        [|by intros ? ?%elem_of_nil].
      change (negb (name =? "")%string) with (truthy (Some name)).
      destruct (truthy (Some name)) eqn:Ht; [|by intros ? ?%elem_of_nil].
      intros name' ->%list_elem_of_singleton.
      split; [by apply truthy_not_empty|]. exists r. split; [left|done].
Qed.

Lemma add_code_complete m r pc :
  record_code r = Some pc → pc ∈ (add_code m r).*1.
Proof.
  intros Hr. rewrite add_code_keys, Hr.
  destruct (decide (pc ∈ m.*1)); [done|]. apply elem_of_app. right. left.
Qed.

Lemma add_code_keys_mono m r pc : pc ∈ m.*1 → pc ∈ (add_code m r).*1.
Proof.
  intros Hpc. rewrite add_code_keys. destruct (record_code r) as [pc0|]; [|done].
  destruct (decide (pc0 ∈ m.*1)); [done|]. apply elem_of_app. by left.
Qed.

Lemma add_code_NoDup m r : NoDup m.*1 → NoDup (add_code m r).*1.
Proof.
  intros Hnd. rewrite add_code_keys. destruct (record_code r) as [pc|]; [|done].
  destruct (decide (pc ∈ m.*1)); [done|].
  apply NoDup_app. split_and!; [done| |apply NoDup_singleton].
  by intros x Hx ->%list_elem_of_singleton.
Qed.

Lemma foldl_add_code_entries rs : ∀ m seen,
  NoDup m.*1 →
  (∀ r' pc, r' ∈ seen → record_code r' = Some pc → pc ∈ m.*1) →
  (∀ pc info, (pc, info) ∈ m → entry_of seen pc info) →
  ∀ pc info, (pc, info) ∈ foldl add_code m rs → entry_of (seen ++ rs) pc info.
Proof.
  induction rs as [|r rs IH]; intros m seen Hnd Hkeys Hm pc info; cbn [foldl].
  { rewrite app_nil_r. apply Hm. }
  rewrite (cons_middle r seen rs), app_assoc. apply IH.
  - by apply add_code_NoDup.
  - intros r' pc' [Hr'| ->%list_elem_of_singleton]%elem_of_app Hc.
    + apply add_code_keys_mono. by eapply Hkeys.
    + by apply add_code_complete.
  - by apply add_code_entries.
Qed.

(** X23: the map [productCodes] built from a 510(k) response.  Each entry is
    filed under the code it names; its count is the number of records of the
    response with that code (valid, and compared in upper case), so it is at
    least 1; its device names are names of such records, none empty and none
    twice. *)
Theorem collect_codes_entries (rs : list CandidateRecord) (pc : string) (info : CodeInfo) :
  (pc, info) ∈ collect_codes rs → entry_of rs pc info.
Proof.
  intros Hin. apply (foldl_add_code_entries rs [] []); [apply NoDup_nil_2| | |done].
  - by intros r' pc' ?%elem_of_nil.
  - by intros pc' info' ?%elem_of_nil.
Qed.

Lemma collect_codes_entries_witness :
  entry_of [k_cuff; k_cuff] "DXN"
    {| code := "DXN"; deviceNames := ["SmartCuff Pro"]; count := 2 |}.
Proof.
  apply collect_codes_entries. vm_compute. left.
Defined.

(** ** The number of 510(k) queries of the bridge *)

Lemma length_dedup_keys cs : ∀ seen, length (dedup_keys seen cs) ≤ length cs.
Proof.
  induction cs as [|c cs IH]; intros seen; cbn [dedup_keys]; [done|].
  destruct (decide (join "+" c ∈ seen)); cbn [length]; [|apply le_n_S]; etrans;
    try apply IH; lia.
Qed.

Lemma length_list_filter {A} (p : A → bool) (l : list A) :
  length (List.filter p l) ≤ length l.
Proof.
  induction l as [|x l IH]; [done|]. cbn [List.filter].
  destruct (p x); cbn [length]; lia.
Qed.

Lemma length_topCombos terms : length (topCombos terms) ≤ 8 + length terms.
Proof.
  unfold topCombos, pairAndUp, medicalSingles, medicalTerms.
  rewrite length_app, length_take, length_fmap.
  pose proof (length_list_filter (λ t, 5 <=? String.length t)
    (List.filter (λ t, negb (bool_decide (toLowerCase t ∈ GENERIC_510K_TERMS))) terms)).
  pose proof (length_list_filter
    (λ t, negb (bool_decide (toLowerCase t ∈ GENERIC_510K_TERMS))) terms).
  lia.
Qed.

(** X22: the bridge sends at most 16 queries to the 510(k) collection for
    combinations of two or more terms, and at most one more for each
    expanded and each original term. *)
Theorem bridge_510k_bound {World : Type}
    (queryOpenFDA : World → Request → OpenFDAResponse * World)
    (device_class : option string) (originalTerms expandedTerms : list string)
    (query : string) (o : IO World) :
  let result :=
    bridgeVia510k queryOpenFDA device_class originalTerms query expandedTerms o in
  length (List.filter is_510k (requests result.2))
  ≤ length (List.filter is_510k (requests o))
    + 16 + length expandedTerms + length originalTerms.
Proof.
  cbv zeta.
  destruct (bridge_candidate_queries queryOpenFDA device_class originalTerms
              expandedTerms query o) as (_ & extra & k & Hreq & Hf & _).
  rewrite Hreq, List.filter_app, length_app, Hf, length_fmap, length_take.
  pose proof (length_dedup_keys (topCombos expandedTerms ++ topCombos originalTerms) ∅).
  rewrite length_app in *.
  pose proof (length_topCombos expandedTerms).
  pose proof (length_topCombos originalTerms). lia.
Qed.

(** ** The AI hint *)

Lemma no_space_lower t : no_space (toLowerCase t) = no_space t.
Proof. apply all_chars_map_string. intros c. by rewrite isSpace_lower. Qed.

(** X24: the terms of a query hold no white space, so the three two-word
    entries of [aiTerms] never match: a query counts as an AI query exactly
    when one of its words is ai, ml, algorithm, samd or software, whatever
    the case. *)
Theorem isAIQuery_single_words (query : string) :
  isAIQuery (split_ws (trim query))
  = existsb (λ t, bool_decide
                    (toLowerCase t ∈ ["ai"; "ml"; "algorithm"; "samd"; "software"]))
      (split_ws (trim query)).
Proof.
  unfold isAIQuery.
  pose proof (split_go_no_space (trim query) "" false eq_refl) as Hns.
  fold (split_ws (trim query)) in Hns.
  induction Hns as [|t ts Ht _ IH]; [done|]. cbn [existsb]. rewrite IH. f_equal.
  rewrite <-no_space_lower in Ht. apply bool_decide_ext. unfold aiTerms.
  rewrite !elem_of_cons. split.
  - intros [?|[?|[?|[H|[H|[H|[?|[?|H]]]]]]]]; auto 10;
      try (rewrite H in Ht; discriminate Ht); by apply elem_of_nil in H.
  - intros [?|[?|[?|[?|[?|H]]]]]; auto 10; by apply elem_of_nil in H.
Qed.

(** ** The first call of a text search *)



